(** * tweepy/binder.py: parameter binding and the resilient request loop

    A shallow embedding of [APIMethod] (its constructor, [build_parameters]
    and [execute]) and of [bind_api], followed by the properties of the
    retry loop, the rate-limit gate, the cache phase and the error
    surfacing that the specification states.

    Conventions.
    - A Python [str] is a Rocq [string] holding its UTF-8 bytes. The value
      of a response header is decoded by [http.client] as Latin-1, one
      character per byte, and is held as these bytes.
    - Python integers are [Z]; durations handed to [time.sleep] are [Q].
    - [self.session.params] is an insertion-ordered dict: an association
      list with unique keys, updated in place or extended at the end.
    - Response headers are a [gmap string string] whose keys are stored in
      lower case (requests' headers are a case-insensitive dict).
    - Collaborators (transport, clock, auth, cache, parser) are oracles
      collected in [env]; what [execute] does to them is recorded in a
      trace of [event]s.
    - The [while] loop of [execute] need not terminate, so it is run with
      a bound on the number of iterations; running out yields [OutOfFuel].
    - Logging through [log.debug] is not modelled. *)

From Stdlib Require Import ZArith QArith String Ascii List Lia Bool.
From Stdlib Require Import DecimalString.
From stdpp Require Import gmap strings.
Import ListNotations.

Local Open Scope string_scope.
Local Open Scope list_scope.
Local Open Scope Z_scope.

(** ** Python values and builtins *)

(** Values passed as API parameters. [None] is [option]'s [None]. *)
Inductive pyval :=
| PStr (s : string)
| PInt (z : Z)
| PBool (b : bool).

Definition string_of_Z (z : Z) : string := NilZero.string_of_int (Z.to_int z).

(** [str(arg)] *)
Definition py_str (v : pyval) : string :=
  match v with
  | PStr s => s
  | PInt z => string_of_Z z
  | PBool true => "True"
  | PBool false => "False"
  end.

(** Truth value of a parameter ([None] is falsy). *)
Definition pyval_truthy (v : option pyval) : bool :=
  match v with
  | None => false
  | Some (PStr s) => negb (String.eqb s "")
  | Some (PInt z) => negb (z =? 0)
  | Some (PBool b) => b
  end.

(** The characters [int] and [float] strip from a header value: those of
    [str.isspace] below U+0100, which are U+0009 to U+000D, U+001C to
    U+0020, U+0085 and U+00A0. *)
Definition is_space (c : ascii) : bool :=
  let n := nat_of_ascii c in
  ((9 <=? n) && (n <=? 13))%nat || ((28 <=? n) && (n <=? 32))%nat
  || (n =? 133)%nat || (n =? 160)%nat.

Definition digit_of (c : ascii) : option Z :=
  let n := nat_of_ascii c in
  if ((48 <=? n) && (n <=? 57))%nat then Some (Z.of_nat (n - 48)) else None.

Fixpoint lstrip (s : string) : string :=
  match s with
  | String c r => if is_space c then lstrip r else s
  | EmptyString => s
  end.

Fixpoint string_rev_onto (s acc : string) : string :=
  match s with
  | EmptyString => acc
  | String c r => string_rev_onto r (String c acc)
  end.

Definition string_rev (s : string) : string := string_rev_onto s "".

(** [s.strip()] *)
Definition strip (s : string) : string :=
  string_rev (lstrip (string_rev (lstrip s))).

(** Digits with single underscores allowed between digits, as in Python's
    numeric literals. [acc] is the value read so far, [n] counts digits,
    [us] tells that the previous character was an underscore. Returns the
    value, the number of digits and what is left. *)
Fixpoint digits_from (s : string) (acc : Z) (n : nat) (us : bool)
  : option (Z * nat * string) :=
  match s with
  | EmptyString => if us then None else Some (acc, n, s)
  | String c r =>
      match digit_of c with
      | Some d => digits_from r (10 * acc + d) (S n) false
      | None =>
          if Ascii.eqb c "_" then
            if us || (n =? 0)%nat then None else digits_from r acc n true
          else if us then None else Some (acc, n, s)
      end
  end.

Definition split_sign (s : string) : bool * string :=
  match s with
  | String "-" r => (true, r)
  | String "+" r => (false, r)
  | _ => (false, s)
  end.

Definition apply_sign (neg : bool) (z : Z) : Z := if neg then - z else z.

(** [int(s)] for a header value: surrounding whitespace, an optional sign,
    decimal digits, which below U+0100 are the ASCII ones. [None] stands
    for [ValueError]. *)
Definition py_int (s : string) : option Z :=
  let '(neg, body) := split_sign (strip s) in
  match digits_from body 0 0 false with
  | Some (v, S _, EmptyString) => Some (apply_sign neg v)
  | _ => None
  end.

(** Results of [float(s)]: a finite number, an infinity or a NaN. The
    finite value is the rational the literal denotes: rounding to the
    nearest double is not modelled, except that a literal rounding beyond
    the largest double gives an infinity. *)
Inductive pyfloat :=
| Finite (q : Q)
| Infinite (neg : bool)
| NaN.

Fixpoint lower (s : string) : string :=
  match s with
  | EmptyString => EmptyString
  | String c r =>
      let n := nat_of_ascii c in
      String (if ((65 <=? n) && (n <=? 90))%nat then ascii_of_nat (n + 32)
              else c)
             (lower r)
  end.

Definition pow10 (e : Z) : Q :=
  if e <? 0 then 1 # (Z.to_pos (10 ^ (- e))) else inject_Z (10 ^ e).

(** Optional exponent part [e[+-]digits] closing a float literal. *)
Definition exponent (s : string) : option Z :=
  match s with
  | EmptyString => Some 0
  | String c r =>
      if Ascii.eqb c "e" || Ascii.eqb c "E" then
        let '(neg, body) := split_sign r in
        match digits_from body 0 0 false with
        | Some (v, S _, EmptyString) => Some (apply_sign neg v)
        | _ => None
        end
      else None
  end.

(** Mantissa [digits[.[digits]]] or [.digits]; returns the value as
    [num / 10^scale] and what is left. *)
Definition mantissa (s : string) : option (Z * nat * string) :=
  match digits_from s 0 0 false with
  | None => None
  | Some (ip, ni, String "." r) =>
      match r with
      | String c _ =>
          match digit_of c with
          | Some _ => digits_from r ip 0 false
          | None => if (ni =? 0)%nat then None else Some (ip, 0%nat, r)
          end
      | EmptyString => if (ni =? 0)%nat then None else Some (ip, 0%nat, r)
      end
  | Some (ip, ni, rest) =>
      if (ni =? 0)%nat then None else Some (ip, 0%nat, rest)
  end.

(** The least magnitude that rounds to an infinity: half way between
    the largest double and [2^1024]. *)
Definition double_overflow : Z := 2 ^ 1024 - 2 ^ 970.

(** [float(s)] for a header value. [None] stands for [ValueError]. *)
Definition py_float (s : string) : option pyfloat :=
  let '(neg, body) := split_sign (strip s) in
  let word := lower body in
  if String.eqb word "inf" || String.eqb word "infinity"
  then Some (Infinite neg)
  else if String.eqb word "nan" then Some NaN
  else
    match mantissa body with
    | None => None
    | Some (num, scale, rest) =>
        match exponent rest with
        | None => None
        | Some e =>
            let q := Qred (inject_Z num * pow10 (e - Z.of_nat scale)) in
            if Qle_bool (inject_Z double_overflow) q
            then Some (Infinite neg)
            else Some (Finite (if neg then Qopp q else q))
        end
    end.

(** ** URL encoding *)

Definition hex_digit (n : nat) : ascii :=
  if (n <? 10)%nat then ascii_of_nat (48 + n) else ascii_of_nat (55 + n).

(** Characters [quote] never escapes: letters, digits and [_.-~]. *)
Definition always_safe (c : ascii) : bool :=
  let n := nat_of_ascii c in
  ((48 <=? n) && (n <=? 57))%nat || ((65 <=? n) && (n <=? 90))%nat
  || ((97 <=? n) && (n <=? 122))%nat
  || Ascii.eqb c "_" || Ascii.eqb c "." || Ascii.eqb c "-" || Ascii.eqb c "~".

(** [urllib.parse.quote_plus] on the UTF-8 bytes of a string. *)
Fixpoint quote_plus (s : string) : string :=
  match s with
  | EmptyString => EmptyString
  | String c r =>
      if always_safe c then String c (quote_plus r)
      else if Ascii.eqb c " " then String "+" (quote_plus r)
      else
        let n := nat_of_ascii c in
        String "%" (String (hex_digit (n / 16)) (String (hex_digit (n mod 16))
                                                        (quote_plus r)))
  end.

Definition params := list (string * string).

Fixpoint join_amp (l : list string) : string :=
  match l with
  | [] => ""
  | [x] => x
  | x :: r => x +:+ "&" +:+ join_amp r
  end.

(** [urllib.parse.urlencode] of a dict of strings, in insertion order. *)
Definition urlencode (p : params) : string :=
  join_amp
    (map (fun kv => quote_plus (fst kv) +:+ "=" +:+ quote_plus (snd kv)) p).

(** ** Responses, exceptions and the objects of the binder *)

(** What [session.request] returns, as far as [execute] reads it. *)
Record response := {
  status_code : Z;
  headers : gmap string string;
  text : string
}.

(** Exceptions leaving [APIMethod]. [PyError] stands for the builtin
    exceptions ([ValueError], [OverflowError], [UnboundLocalError]) and
    [ParserError] for whatever [parser.parse] raises. *)
Inductive exn :=
| TweepError (reason : string) (resp : option response) (api_code : option Z)
| RateLimitError (reason : string) (resp : option response)
| PyError (kind : string)
| ParserError (what : string).

(** Objects that results are made of. A [Model] instance carries the
    back-reference [_api] to the API object that owns it, here the
    identity of that object. *)
#[warnings="-register-all"]
Inductive pyobj :=
| ONone
| OModel (api_ref : option nat) (payload : string)
| OStr (s : string)
| OInt (z : Z)
| OList (l : list pyobj).

(** [bool(o)]: [None], the empty string, zero and the empty list are
    falsy; a [Model] instance is truthy. *)
Definition truthy (o : pyobj) : bool :=
  match o with
  | ONone => false
  | OModel _ _ => true
  | OStr s => negb (String.eqb s "")
  | OInt z => negb (z =? 0)
  | OList l => match l with [] => false | _ => true end
  end.

(** The API object. [auth], [cache] and [parser] name the collaborators;
    their behaviour is in [env]. *)
Record API := {
  api_id : nat;
  auth : option string;
  cache : option string;
  parser : string;
  host : string;
  api_root : string;
  upload_host : string;
  upload_root : string;
  retry_count : Z;
  retry_delay : Q;
  retry_errors : list Z;
  timeout : Q;
  wait_on_rate_limit : bool;
  wait_on_rate_limit_notify : bool;
  proxy : option string;
  cached_result : bool;
  last_response : option response
}.

Definition set_cached_result (b : bool) (a : API) : API :=
  {| api_id := api_id a; auth := auth a; cache := cache a; parser := parser a;
     host := host a; api_root := api_root a; upload_host := upload_host a;
     upload_root := upload_root a; retry_count := retry_count a;
     retry_delay := retry_delay a; retry_errors := retry_errors a;
     timeout := timeout a; wait_on_rate_limit := wait_on_rate_limit a;
     wait_on_rate_limit_notify := wait_on_rate_limit_notify a;
     proxy := proxy a; cached_result := b; last_response := last_response a |}.

Definition set_last_response (r : response) (a : API) : API :=
  {| api_id := api_id a; auth := auth a; cache := cache a; parser := parser a;
     host := host a; api_root := api_root a; upload_host := upload_host a;
     upload_root := upload_root a; retry_count := retry_count a;
     retry_delay := retry_delay a; retry_errors := retry_errors a;
     timeout := timeout a; wait_on_rate_limit := wait_on_rate_limit a;
     wait_on_rate_limit_notify := wait_on_rate_limit_notify a;
     proxy := proxy a; cached_result := cached_result a;
     last_response := Some r |}.

(** An [APIMethod] instance ([self]). [m_params] is [self.session.params];
    [remaining_calls] and [reset_time] are [_remaining_calls] and
    [_reset_time]. *)
Record APIMethod := {
  path : string;
  payload_type : option string;
  payload_list : bool;
  allowed_param : list string;
  require_auth : bool;
  upload_api : bool;
  json_payload : option string;
  m_parser : string;
  m_headers : list (string * string);
  m_params : params;
  m_api_root : string;
  m_host : string;
  remaining_calls : option Z;
  reset_time : option Z
}.

Definition set_rate_limit (rc rt : option Z) (m : APIMethod) : APIMethod :=
  {| path := path m; payload_type := payload_type m;
     payload_list := payload_list m; allowed_param := allowed_param m;
     require_auth := require_auth m; upload_api := upload_api m;
     json_payload := json_payload m; m_parser := m_parser m;
     m_headers := m_headers m; m_params := m_params m;
     m_api_root := m_api_root m; m_host := m_host m;
     remaining_calls := rc; reset_time := rt |}.

(** ** [build_parameters] *)

(** [k in d] for the ordered dict. *)
Definition dict_mem (k : string) (d : params) : bool :=
  existsb (fun kv => String.eqb k (fst kv)) d.

(** [d[k] = v]: overwrite in place, or append a new key. *)
Fixpoint dict_set (k v : string) (d : params) : params :=
  match d with
  | [] => [(k, v)]
  | (k', v') :: r =>
      if String.eqb k k' then (k, v) :: r else (k', v') :: dict_set k v r
  end.

Definition too_many : exn :=
  TweepError "Too many parameters supplied!" None None.

Definition multiple_values (k : string) : exn :=
  TweepError ("Multiple values for parameter " +:+ k +:+ " supplied!")
             None None.

(** First loop: [for idx, arg in enumerate(args)]. *)
Fixpoint bind_positional (schema : list string) (idx : nat)
         (args : list (option pyval)) (p : params) : exn + params :=
  match args with
  | [] => inr p
  | None :: rest => bind_positional schema (S idx) rest p
  | Some a :: rest =>
      match schema !! idx with
      | Some name =>
          bind_positional schema (S idx) rest (dict_set name (py_str a) p)
      | None => inl too_many
      end
  end.

(** Second loop: [for k, arg in kwargs.items()]. *)
Fixpoint bind_keywords (kwargs : list (string * option pyval)) (p : params)
  : exn + params :=
  match kwargs with
  | [] => inr p
  | (k, None) :: rest => bind_keywords rest p
  | (k, Some a) :: rest =>
      if dict_mem k p then inl (multiple_values k)
      else bind_keywords rest (dict_set k (py_str a) p)
  end.

Definition build_parameters (schema : list string)
           (args : list (option pyval)) (kwargs : list (string * option pyval))
  : exn + params :=
  match bind_positional schema 0 args [] with
  | inl e => inl e
  | inr p => bind_keywords kwargs p
  end.

(** ** Collaborators and effects *)

(** The arguments of [self.session.request]. *)
Record request := {
  rq_method : string;
  rq_url : string;
  rq_headers : list (string * string);
  rq_data : option string;
  rq_json : option string;
  rq_timeout : Q;
  rq_auth : option string;
  rq_proxies : option string
}.

(** What [execute] does to the outside world, in order. *)
Inductive event :=
| CacheGet (key : string)
| CacheStore (key : string) (value : pyobj)
| LogWarning (sleep_time : Z)
| Sleep (seconds : Q)
| ApplyAuth
| Send (rq : request)
| SessionClose.

(** The outside world of one call. Oracles that are consulted once per
    loop iteration take the number of sends made so far.
    - [clock k]: the value of [int(time.time())] at the gate;
    - [apply_auth h k]: the credentials [api.auth.apply_auth()] returns;
    - [session_request k rq]: the response, or [inl e] when the transport
      raises an exception whose text is [e];
    - [cache_get c key]: what [api.cache.get(key)] returns;
    - [parse_error p body]: what the parser's [parse_error] returns, [None]
      when it raises;
    - [parse p self body return_cursors]: the parsed result or the
      exception raised;
    - [is_rate_limit_error_message]: the predicate of [tweepy.error], which
      recognises the error message of a rate-limit error. It is defined
      outside binder.py and is a parameter here; error messages are
      strings, as in the parser contract of the specification. *)
Record env := {
  clock : nat -> Z;
  apply_auth : string -> nat -> option string;
  session_request : nat -> request -> string + response;
  cache_get : string -> string -> pyobj;
  parse_error : string -> string -> option (string * option Z);
  parse : string -> APIMethod -> string -> bool -> exn + pyobj;
  is_rate_limit_error_message : string -> bool
}.

(** [time.sleep] turns its argument into a signed 64-bit number of
    nanoseconds, rounding away from zero. *)
Definition nanoseconds (q : Q) : Z :=
  let n := Qnum q * 10 ^ 9 in
  let d := Z.pos (Qden q) in
  if 0 <=? n then (n + d - 1) / d else - ((- n + d - 1) / d).

(** The longest sleep, in nanoseconds and in whole seconds. *)
Definition max_sleep_ns : Z := 2 ^ 63 - 1.

Definition max_sleep : Z := 9223372036.

(** [time.sleep(d)]: a length that does not fit the 64-bit nanosecond
    count (more than about 9.2e9 seconds, or an infinity) raises
    [OverflowError]; a negative or NaN length raises [ValueError]. For an
    [int] the test is exactly this one; for a [float] the code compares
    doubles, so a length within rounding distance of [2^63] nanoseconds
    may fall on the other side. *)
Definition time_sleep (d : pyfloat) : exn + list event :=
  match d with
  | Finite q =>
      let ns := nanoseconds q in
      if (ns <? - 2 ^ 63) || (max_sleep_ns <? ns)
      then inl (PyError "OverflowError")
      else if Qle_bool 0 q then inr [Sleep q]
           else inl (PyError "ValueError")
  | Infinite _ => inl (PyError "OverflowError")
  | NaN => inl (PyError "ValueError")
  end.

(** ** [execute] *)

Definition is_2xx (s : Z) : bool := (200 <=? s) && (s <? 300).

Definition mem_Z (x : Z) (l : list Z) : bool := existsb (Z.eqb x) l.

(** [url = self.api_root + self.path] *)
Definition url_of (m : APIMethod) : string := m_api_root m +:+ path m.

(** [full_url = 'https://' + self.host + url] *)
Definition full_url_of (m : APIMethod) : string :=
  "https://" +:+ m_host m +:+ url_of m.

(** [f'{url}?{urlencode(self.session.params)}'] *)
Definition cache_key (m : APIMethod) : string :=
  url_of m +:+ "?" +:+ urlencode (m_params m).

(** [result._api = self.api] when [result] is a [Model]. *)
Definition set_api_ref (a : nat) (o : pyobj) : pyobj :=
  match o with
  | OModel _ p => OModel (Some a) p
  | _ => o
  end.

(** Lines 89-95: restore the back-reference on a cached result. *)
Definition restore_api (a : nat) (o : pyobj) : pyobj :=
  match o with
  | OList l => OList (map (set_api_ref a) l)
  | _ => set_api_ref a o
  end.

(** The local variables of the retry loop, with [self]. [sends] counts the
    requests issued. *)
Record loop_state := {
  retries_performed : Z;
  sends : nat;
  self : APIMethod;
  resp_var : option response
}.

(** How one run of the loop body ends. *)
Inductive step_result :=
| Continue (st : loop_state)
| Break (st : loop_state)
| Throw (e : exn) (st : loop_state).

Section Execute.

Variable E : env.
Variable api : API.
Variable method : string.
Variable post_data : option string.

(** Lines 103-111: the rate-limit gate, with what it did and the
    exception of [time.sleep] when it raises one. *)
Definition gate (m : APIMethod) (k : nat) : list event * option exn :=
  if wait_on_rate_limit api then
    match reset_time m, remaining_calls m with
    | Some rt, Some rc =>
        if rc <? 1 then
          let sleep_time := rt - clock E k in
          if 0 <? sleep_time then
            let log := if wait_on_rate_limit_notify api
                       then [LogWarning sleep_time] else [] in
            match time_sleep (Finite (inject_Z (sleep_time + 1))) with
            | inr evs => (log ++ evs, None)
            | inl e => (log, Some e)
            end
          else ([], None)
        else ([], None)
    | _, _ => ([], None)
    end
  else ([], None).

(** Lines 114-116. *)
Definition authenticate (k : nat) : option string * list event :=
  match auth api with
  | Some h => (apply_auth E h k, [ApplyAuth])
  | None => (None, [])
  end.

Definition make_request (m : APIMethod) (credentials : option string)
  : request :=
  {| rq_method := method; rq_url := full_url_of m;
     rq_headers := m_headers m; rq_data := post_data;
     rq_json := json_payload m; rq_timeout := timeout api;
     rq_auth := credentials; rq_proxies := proxy api |}.

(** Lines 134-142: rate-limit bookkeeping from the response headers.
    [int] may raise; the assignment before it has then taken place. *)
Definition update_rate_limit (r : response) (m : APIMethod)
  : exn * APIMethod + APIMethod :=
  let rem :=
    match headers r !! "x-rate-limit-remaining" with
    | Some s =>
        match py_int s with
        | Some n => inr (Some n)
        | None => inl (PyError "ValueError")
        end
    | None =>
        inr (match remaining_calls m with
             | Some n => Some (n - 1)
             | None => None
             end)
    end in
  match rem with
  | inl e => inl (e, m)
  | inr rc =>
      let m1 := set_rate_limit rc (reset_time m) m in
      match headers r !! "x-rate-limit-reset" with
      | Some s =>
          match py_int s with
          | Some t => inr (set_rate_limit rc (Some t) m)
          | None => inl (PyError "ValueError", m1)
          end
      | None => inr m1
      end
  end.

(** What lines 144-153 decide. *)
Inductive verdict :=
| RetryNow
| RetryAfter (d : pyfloat)
| GiveUp
| Fault (e : exn).

Definition classify (r : response) (m : APIMethod) : verdict :=
  let s := status_code r in
  if ((s =? 420) || (s =? 429)) && wait_on_rate_limit api then
    if match remaining_calls m with Some 0 => true | _ => false end then
      RetryNow
    else
      match headers r !! "retry-after" with
      | Some v =>
          match py_float v with
          | Some d => RetryAfter d
          | None => Fault (PyError "ValueError")
          end
      | None => RetryAfter (Finite (retry_delay api))
      end
  else if match retry_errors api with [] => false | _ => true end
          && negb (mem_Z s (retry_errors api)) then GiveUp
  else RetryAfter (Finite (retry_delay api)).

(** Lines 131-157: what follows a response. *)
Definition after_response (r : response) (st : loop_state)
  : step_result * list event :=
  let st0 := {| retries_performed := retries_performed st;
                sends := sends st; self := self st; resp_var := Some r |} in
  if is_2xx (status_code r) then (Break st0, [])
  else
    match update_rate_limit r (self st) with
    | inl (e, m) =>
        (Throw e {| retries_performed := retries_performed st;
                    sends := sends st; self := m; resp_var := Some r |}, [])
    | inr m =>
        let st1 := {| retries_performed := retries_performed st;
                      sends := sends st; self := m; resp_var := Some r |} in
        match classify r m with
        | RetryNow => (Continue st1, [])
        | GiveUp => (Break st1, [])
        | Fault e => (Throw e st1, [])
        | RetryAfter d =>
            match time_sleep d with
            | inl e => (Throw e st1, [])
            | inr evs =>
                (Continue {| retries_performed := retries_performed st + 1;
                             sends := sends st; self := m;
                             resp_var := Some r |}, evs)
            end
        end
    end.

(** Lines 103-157: one run of the loop body. *)
Definition iteration (st : loop_state) : step_result * list event :=
  let k := sends st in
  match gate (self st) k with
  | (g, Some e) => (Throw e st, g)
  | (g, None) =>
      let '(credentials, a) := authenticate k in
      let rq := make_request (self st) credentials in
      let st' := {| retries_performed := retries_performed st; sends := S k;
                    self := self st; resp_var := resp_var st |} in
      match session_request E k rq with
      | inl e =>
          (Throw (TweepError ("Failed to send request: " +:+ e) None None)
                 st',
           g ++ a ++ [Send rq])
      | inr r =>
          let '(res, evs) := after_response r st' in
          (res, g ++ a ++ Send rq :: evs)
      end
  end.

(** The events of an iteration that come before its request when the
    gate lets it through, and the request itself. *)
Definition prelude (st : loop_state) : list event :=
  fst (gate (self st) (sends st)) ++ snd (authenticate (sends st)).

Definition request_of (st : loop_state) : request :=
  make_request (self st) (fst (authenticate (sends st))).

(** How the [while] loop ends. *)
Inductive loop_result :=
| LoopExit (st : loop_state)
| LoopRaise (e : exn) (st : loop_state)
| LoopOutOfFuel (st : loop_state).

(** Lines 102-157: [while retries_performed < self.api.retry_count + 1]. *)
Fixpoint retry_loop (fuel : nat) (st : loop_state)
  : loop_result * list event :=
  if retries_performed st <? retry_count api + 1 then
    match fuel with
    | O => (LoopOutOfFuel st, [])
    | S f =>
        match iteration st with
        | (Continue st', evs) =>
            let '(res, evs') := retry_loop f st' in (res, evs ++ evs')
        | (Break st', evs) => (LoopExit st', evs)
        | (Throw e st', evs) => (LoopRaise e st', evs)
        end
    end
  else (LoopExit st, []).

(** How a call ends. *)
Inductive outcome :=
| Returned (result : pyobj)
| Raised (e : exn)
| OutOfFuel.

(** A finished call: how it ended, the API object and [self] as it left
    them, and what it did. *)
Record run := {
  result_of : outcome;
  api_of : API;
  self_of : APIMethod;
  trace_of : list event
}.

Variable return_cursors : bool.
Variable use_cache : bool.

(** The condition of lines 84 and 179: [use_cache and self.api.cache and
    method == 'GET'], with the cache when it holds. *)
Definition cache_in_use : option string :=
  if use_cache then
    match cache api with
    | Some c => if String.eqb method "GET" then Some c else None
    | None => None
    end
  else None.

(** Lines 162-171: the exception raised for an error response. *)
Definition error_of (m : APIMethod) (r : response) : exn :=
  let '(error_msg, api_error_code) :=
    match parse_error E (m_parser m) (text r) with
    | Some mc => mc
    | None =>
        ("Twitter error response: status code = "
           +:+ string_of_Z (status_code r), None)
    end in
  if is_rate_limit_error_message E error_msg
  then RateLimitError error_msg (Some r)
  else TweepError error_msg (Some r) api_error_code.

(** Lines 159-182: what follows the loop. [a] is the API object with
    [cached_result] cleared. *)
Definition after_loop (a : API) (st : loop_state) (tr : list event) : run :=
  match resp_var st with
  | None =>
      {| result_of := Raised (PyError "UnboundLocalError"); api_of := a;
         self_of := self st; trace_of := tr |}
  | Some r =>
      let a' := set_last_response r a in
      if negb (status_code r =? 0) && negb (is_2xx (status_code r)) then
        {| result_of := Raised (error_of (self st) r); api_of := a';
           self_of := self st; trace_of := tr |}
      else
        let rc := return_cursors || dict_mem "cursor" (m_params (self st))
                  || dict_mem "next" (m_params (self st)) in
        match parse E (m_parser (self st)) (self st) (text r) rc with
        | inl e =>
            {| result_of := Raised e; api_of := a'; self_of := self st;
               trace_of := tr |}
        | inr result =>
            {| result_of := Returned result; api_of := a';
               self_of := self st;
               trace_of :=
                 tr ++ match cache_in_use with
                       | Some _ =>
                           if truthy result
                           then [CacheStore (cache_key (self st)) result]
                           else []
                       | None => []
                       end |}
        end
  end.

(** The loop variables on entry: line 101. *)
Definition initial (m : APIMethod) : loop_state :=
  {| retries_performed := 0; sends := 0; self := m; resp_var := None |}.

(** Lines 99-182: the network phase, entered on a cache miss. *)
Definition network_phase (fuel : nat) (a : API) (m : APIMethod)
           (tr : list event) : run :=
  match retry_loop fuel (initial m) with
  | (LoopExit st', evs) => after_loop a st' (tr ++ evs)
  | (LoopRaise e st', evs) =>
      {| result_of := Raised e; api_of := a; self_of := self st';
         trace_of := tr ++ evs |}
  | (LoopOutOfFuel st', evs) =>
      {| result_of := OutOfFuel; api_of := a; self_of := self st';
         trace_of := tr ++ evs |}
  end.

(** [APIMethod.execute], lines 75-182. *)
Definition execute (fuel : nat) (m : APIMethod) : run :=
  let a := set_cached_result false api in
  match cache_in_use with
  | Some c =>
      let cache_result := cache_get E c (cache_key m) in
      if truthy cache_result then
        {| result_of := Returned (restore_api (api_id api) cache_result);
           api_of := set_cached_result true a; self_of := m;
           trace_of := [CacheGet (cache_key m)] |}
      else network_phase fuel a m [CacheGet (cache_key m)]
  | None => network_phase fuel a m []
  end.

End Execute.

(** ** The constructor and [bind_api] *)

(** The keyword arguments [APIMethod.__init__] pops, defaults filled in. *)
Record binding := {
  b_path : string;
  b_payload_type : option string;
  b_payload_list : bool;
  b_allowed_param : list string;
  b_require_auth : bool;
  b_upload_api : bool;
  b_json_payload : option string;
  b_parser : option string;
  b_headers : list (string * string)
}.

(** [APIMethod.__init__], lines 20-53. [kwargs] is what is left of the
    keyword arguments once the known ones are popped. *)
Definition init (api : API) (b : binding) (args : list (option pyval))
           (kwargs : list (string * option pyval)) : exn + APIMethod :=
  if b_require_auth b && match auth api with None => true | Some _ => false end
  then inl (TweepError "Authentication required!" None None)
  else
    match build_parameters (b_allowed_param b) args kwargs with
    | inl e => inl e
    | inr p =>
        inr {| path := b_path b; payload_type := b_payload_type b;
               payload_list := b_payload_list b;
               allowed_param := b_allowed_param b;
               require_auth := b_require_auth b; upload_api := b_upload_api b;
               json_payload := b_json_payload b;
               m_parser := match b_parser b with
                           | Some p => p
                           | None => parser api
                           end;
               m_headers := b_headers b; m_params := p;
               m_api_root := if b_upload_api b then upload_root api
                             else api_root api;
               m_host := if b_upload_api b then upload_host api else host api;
               remaining_calls := None; reset_time := None |}
    end.

(** [kwargs.get(k)] *)
Fixpoint kwargs_get (k : string) (kwargs : list (string * option pyval))
  : option pyval :=
  match kwargs with
  | [] => None
  | (k', v) :: r => if String.eqb k k' then v else kwargs_get k r
  end.

(** What [bind_api] hands back. *)
Inductive bound :=
| InitFailed (e : exn)
| Created (m : APIMethod) (tr : list event)
| Executed (r : run).

(** [bind_api], lines 185-201. *)
Definition bind_api (E : env) (api : API) (b : binding)
           (args : list (option pyval)) (kwargs : list (string * option pyval))
           (http_method : string) (post_data : option string)
           (return_cursors use_cache : bool) (fuel : nat) : bound :=
  match init api b args kwargs with
  | inl e => InitFailed e
  | inr m =>
      if pyval_truthy (kwargs_get "create" kwargs) then Created m [SessionClose]
      else
        let r := execute E api http_method post_data return_cursors use_cache
                         fuel m in
        Executed {| result_of := result_of r; api_of := api_of r;
                    self_of := self_of r;
                    trace_of := trace_of r ++ match result_of r with
                                              | OutOfFuel => []
                                              | _ => [SessionClose]
                                              end |}
  end.

(** ** Notions used in the statements *)

(** The number of requests issued in a trace. *)
Definition is_send (e : event) : bool :=
  match e with Send _ => true | _ => false end.

Definition count_sends (tr : list event) : nat :=
  length (List.filter is_send tr).

(** Events of the cache. *)
Definition is_cache_event (e : event) : bool :=
  match e with CacheGet _ | CacheStore _ _ => true | _ => false end.

Definition state_of_step (r : step_result) : loop_state :=
  match r with Continue st | Break st | Throw _ st => st end.

Definition state_of_loop (r : loop_result) : loop_state :=
  match r with LoopExit st | LoopRaise _ st | LoopOutOfFuel st => st end.

(** [m'] is [m] up to the two rate-limit fields. *)
Definition rate_limit_only (m m' : APIMethod) : Prop :=
  exists rc rt, m' = set_rate_limit rc rt m.

(** The cache phase returns: lines 84-97. *)
Definition cache_hit (E : env) (api : API) (method : string)
           (use_cache : bool) (m : APIMethod) : bool :=
  match cache_in_use api method use_cache with
  | Some c => truthy (cache_get E c (cache_key m))
  | None => false
  end.

(** The arguments of [int] in lines 136 and 142 are integers. *)
Definition int_header_ok (r : response) (name : string) : bool :=
  match headers r !! name with
  | Some s => match py_int s with Some _ => true | None => false end
  | None => true
  end.

Definition rate_limit_headers_ok (r : response) : bool :=
  int_header_ok r "x-rate-limit-remaining"
  && int_header_ok r "x-rate-limit-reset".

(** A status the loop answers with the configured delay and a retry:
    not a success, not taken by the rate-limit branch, and in the list of
    retryable errors when there is one. *)
Definition plainly_retryable (api : API) (s : Z) : bool :=
  negb (is_2xx s)
  && negb (((s =? 420) || (s =? 429)) && wait_on_rate_limit api)
  && match retry_errors api with [] => true | l => mem_Z s l end.

(** A name is bound positionally when a positional argument other than
    [None] sits at its place in the schema. *)
Definition bound_positionally (schema : list string)
           (args : list (option pyval)) (k : string) : Prop :=
  exists i a, args !! i = Some (Some a) /\ schema !! i = Some k.

(** A name is given by keyword when [kwargs] holds a value other than
    [None] for it. *)
Definition given_by_keyword (kwargs : list (string * option pyval))
           (k : string) : Prop :=
  exists v, In (k, Some v) kwargs.

(** The fields of the API object that [execute] never assigns. *)
Definition same_settings (a b : API) : Prop :=
  api_id a = api_id b /\ auth a = auth b /\ cache a = cache b
  /\ parser a = parser b /\ host a = host b /\ api_root a = api_root b
  /\ upload_host a = upload_host b /\ upload_root a = upload_root b
  /\ retry_count a = retry_count b /\ retry_delay a = retry_delay b
  /\ retry_errors a = retry_errors b /\ timeout a = timeout b
  /\ wait_on_rate_limit a = wait_on_rate_limit b
  /\ wait_on_rate_limit_notify a = wait_on_rate_limit_notify b
  /\ proxy a = proxy b.

(** ** A concrete setting

    An API object with a retry budget of two, a method bound to
    [statuses/show] and a few worlds, used to run the definitions. *)

Definition demo_api : API :=
  {| api_id := 1; auth := Some "oauth"; cache := Some "memory";
     parser := "model"; host := "api.twitter.com"; api_root := "/1.1";
     upload_host := "upload.twitter.com"; upload_root := "/1.1";
     retry_count := 2; retry_delay := 1 # 2; retry_errors := [500; 503];
     timeout := 60; wait_on_rate_limit := true;
     wait_on_rate_limit_notify := true; proxy := None;
     cached_result := false; last_response := None |}.

Definition demo_binding : binding :=
  {| b_path := "/statuses/show.json"; b_payload_type := Some "status";
     b_payload_list := false; b_allowed_param := ["id"];
     b_require_auth := true; b_upload_api := false; b_json_payload := None;
     b_parser := None; b_headers := [] |}.

Definition demo_method : APIMethod :=
  {| path := "/statuses/show.json"; payload_type := Some "status";
     payload_list := false; allowed_param := ["id"]; require_auth := true;
     upload_api := false; json_payload := None; m_parser := "model";
     m_headers := []; m_params := [("id", "42")]; m_api_root := "/1.1";
     m_host := "api.twitter.com"; remaining_calls := None;
     reset_time := None |}.

Definition response_500 : response :=
  {| status_code := 500; headers := ∅; text := "Internal error" |}.

Definition response_429 : response :=
  {| status_code := 429;
     headers := {[ "retry-after" := "5"; "x-rate-limit-remaining" := "3" ]};
     text := "Too many requests" |}.

Definition response_429_spent : response :=
  {| status_code := 429;
     headers := {[ "x-rate-limit-remaining" := "0";
                   "x-rate-limit-reset" := "1060" ]};
     text := "Rate limit exceeded" |}.

Definition response_200 (body : string) : response :=
  {| status_code := 200; headers := ∅; text := body |}.

(** A world whose transport answers every request with [r]; the parser
    takes the body as the error message and as the result, and [rl]
    recognises rate-limit messages. *)
Definition world (r : nat -> string + response) (cached : pyobj)
           (rl : string -> bool) : env :=
  {| clock := fun _ => 1000;
     apply_auth := fun _ _ => Some "token";
     session_request := fun k _ => r k;
     cache_get := fun _ _ => cached;
     parse_error := fun _ body => Some (body, Some 131);
     parse := fun _ _ body _ =>
                inr (if String.eqb body "" then OList []
                     else OModel None body);
     is_rate_limit_error_message := rl |}.

Definition mentions_rate_limit (msg : string) : bool :=
  String.eqb msg "Rate limit exceeded".

Definition response_500_limited : response :=
  {| status_code := 500; headers := ∅; text := "Rate limit exceeded" |}.

Definition limited_method : APIMethod :=
  set_rate_limit (Some 0) (Some 1060) demo_method.

(** The method when the server gave the reset in milliseconds. *)
Definition far_method : APIMethod :=
  set_rate_limit (Some 0) (Some 1700000000000) demo_method.

Definition spent_world : env :=
  world (fun _ => inr response_429_spent) ONone mentions_rate_limit.

Definition cached_timeline : pyobj :=
  OList [OModel None "first"; OStr "raw"; OModel (Some 7%nat) "second"].

(** A transport that answers once and then fails. *)
Definition flaky (k : nat) : string + response :=
  match k with
  | O => inr response_500
  | _ => inl "Connection reset by peer"
  end.

(** ** Further notions *)

(** [d.get(k)] on the ordered dict. *)
Fixpoint dict_get (k : string) (d : params) : option string :=
  match d with
  | [] => None
  | (k', v) :: r => if String.eqb k k' then Some v else dict_get k r
  end.

(** The keyword arguments that are not [None], as strings, in order. *)
Fixpoint supplied (kwargs : list (string * option pyval)) : params :=
  match kwargs with
  | [] => []
  | (k, Some v) :: r => (k, py_str v) :: supplied r
  | (_, None) :: r => supplied r
  end.

(** Every positional argument other than [None] has a name in the
    schema. *)
Definition fits (schema : list string) (args : list (option pyval)) : Prop :=
  forall i a, args !! i = Some (Some a) -> (i < length schema)%nat.

(** The positional arguments that are not [None], under the names the
    schema gives them, as strings, in order. *)
Fixpoint named (schema : list string) (args : list (option pyval)) : params :=
  match schema, args with
  | name :: s, Some a :: r => (name, py_str a) :: named s r
  | _ :: s, None :: r => named s r
  | _, _ => []
  end.

(** The number of calls to [apply_auth] in a trace. *)
Definition is_auth (e : event) : bool :=
  match e with ApplyAuth => true | _ => false end.

Definition count_auth (tr : list event) : nat :=
  length (List.filter is_auth tr).

(** The requests of a trace, in order. *)
Fixpoint requests (tr : list event) : list request :=
  match tr with
  | [] => []
  | Send rq :: r => rq :: requests r
  | _ :: r => requests r
  end.

(** The number of times the session is closed in a trace. *)
Definition count_close (tr : list event) : nat :=
  length (List.filter (fun e => match e with SessionClose => true
                                         | _ => false end) tr).

(** The loop variables once a request is issued, and once its response
    [r] is received, with [self] and the retry counter as the bookkeeping
    leaves them. *)
Definition sent (st : loop_state) : loop_state :=
  {| retries_performed := retries_performed st; sends := S (sends st);
     self := self st; resp_var := resp_var st |}.

Definition received (r : response) (m : APIMethod) (retries : Z)
           (st : loop_state) : loop_state :=
  {| retries_performed := retries; sends := S (sends st); self := m;
     resp_var := Some r |}.

(** The cache lookup of a call, when it makes one. *)
Definition lookup_events (api : API) (method : string) (use_cache : bool)
           (m : APIMethod) : list event :=
  match cache_in_use api method use_cache with
  | Some _ => [CacheGet (cache_key m)]
  | None => []
  end.

(** The credentials of the request issued after [k] others. *)
Definition credentials (E : env) (api : API) (k : nat) : option string :=
  fst (authenticate E api k).

(** An API object without auth handler or cache, that does not wait on
    rate limits and retries every error [n] times at once. *)
Definition plain_api (n : Z) : API :=
  {| api_id := 2; auth := None; cache := None; parser := "model";
     host := "api.twitter.com"; api_root := "/1.1";
     upload_host := "upload.twitter.com"; upload_root := "/1.1";
     retry_count := n; retry_delay := 0; retry_errors := [];
     timeout := 60; wait_on_rate_limit := false;
     wait_on_rate_limit_notify := false; proxy := None;
     cached_result := false; last_response := None |}.

Definition response_404 : response :=
  {| status_code := 404; headers := {[ "x-rate-limit-remaining" := "899" ]};
     text := "Not found" |}.

Definition response_0 : response :=
  {| status_code := 0; headers := ∅; text := "stub" |}.

(** A method of the upload API. *)
Definition upload_binding : binding :=
  {| b_path := "/media/upload.json"; b_payload_type := Some "media";
     b_payload_list := false; b_allowed_param := [];
     b_require_auth := true; b_upload_api := true; b_json_payload := None;
     b_parser := None;
     b_headers := [("Content-Type", "multipart/form-data")] |}.

(** What [quote_plus] makes of one byte. *)
Definition quote_byte (c : ascii) : string := quote_plus (String c "").

(** The characters that separate names, values and items in the output
    of [urlencode]. *)
Definition is_separator (c : ascii) : bool :=
  Ascii.eqb c "=" || Ascii.eqb c "&".

Fixpoint no_separator (s : string) : bool :=
  match s with
  | EmptyString => true
  | String c r => negb (is_separator c) && no_separator r
  end.

Definition hex_value (c : ascii) : option nat :=
  let n := nat_of_ascii c in
  if ((48 <=? n) && (n <=? 57))%nat then Some (n - 48)%nat
  else if ((65 <=? n) && (n <=? 70))%nat then Some (n - 55)%nat
  else None.

(** The byte that one token of [quote_plus] stands for, as
    [urllib.parse.unquote_plus] reads it. *)
Definition unquote_byte (s : string) : option ascii :=
  match s with
  | String c EmptyString =>
      if Ascii.eqb c "+" then Some " "%char else Some c
  | String c (String h1 (String h2 EmptyString)) =>
      if Ascii.eqb c "%" then
        match hex_value h1, hex_value h2 with
        | Some a, Some b => Some (ascii_of_nat (16 * a + b))
        | _, _ => None
        end
      else None
  | _ => None
  end.

(** What follows a name or a value in a query string: nothing, or a
    separator and the rest. *)
Definition at_separator (t : string) : Prop :=
  t = "" \/ exists d r, t = String d r /\ is_separator d = true.

(** A length [time.sleep] accepts. *)
Definition sleepable (q : Q) : Prop :=
  (0 <= q)%Q /\ nanoseconds q <= max_sleep_ns.

(** The gate lets the request through: when it has to wait for the reset,
    the wait is one [time.sleep] accepts. *)
Definition gate_passes (E : env) (api : API) (m : APIMethod) (k : nat)
  : Prop :=
  wait_on_rate_limit api = true ->
  forall rt rc,
    reset_time m = Some rt -> remaining_calls m = Some rc -> rc < 1 ->
    rt - clock E k + 1 <= max_sleep.

(** The gate has nothing to wait for: waiting is off, the rate-limit state
    is not known, or calls remain. *)
Definition gate_open (api : API) (m : APIMethod) : Prop :=
  wait_on_rate_limit api = false \/ reset_time m = None
  \/ remaining_calls m = None
  \/ exists rc, remaining_calls m = Some rc /\ 1 <= rc.

(** A reset time that is never further from the clock than [time.sleep]
    can wait. *)
Definition reset_reachable (E : env) (t : Z) : Prop :=
  forall k, t - clock E k + 1 <= max_sleep.

(** When waiting is on, the reset time the method knows is reachable. *)
Definition known_reset_ok (E : env) (api : API) (m : APIMethod) : Prop :=
  wait_on_rate_limit api = true ->
  forall t, reset_time m = Some t -> reset_reachable E t.

(** When waiting is on, the reset time the method knows and those the
    responses announce are reachable. *)
Definition resets_reachable (E : env) (api : API) (m : APIMethod) : Prop :=
  wait_on_rate_limit api = true ->
  (forall t, reset_time m = Some t -> reset_reachable E t)
  /\ forall k rq r s t,
      session_request E k rq = inr r ->
      headers r !! "x-rate-limit-reset" = Some s -> py_int s = Some t ->
      reset_reachable E t.

(** * Properties *)

(** ** Running the definitions *)

Example py_int_samples :
  py_int " 12_3 " = Some 123 /\ py_int "-5" = Some (-5)
  /\ py_int "" = None /\ py_int "3.0" = None /\ py_int "1__2" = None.
Proof. by repeat split. Qed.

Example py_int_strips_latin1_blanks :
  py_int (String (ascii_of_nat 160) "5") = Some 5
  /\ py_int ("5" +:+ String (ascii_of_nat 133) "") = Some 5
  /\ py_int (String (ascii_of_nat 28) "7") = Some 7
  /\ py_int (String (ascii_of_nat 178) "") = None.
Proof. by vm_compute. Qed.

Example py_float_samples :
  py_float "5" = Some (Finite 5) /\ py_float "1.25e2" = Some (Finite 125)
  /\ py_float ".5" = Some (Finite (1 # 2))
  /\ py_float "-inf" = Some (Infinite true) /\ py_float "nan" = Some NaN
  /\ py_float "Wed, 21 Oct 2015 07:28:00 GMT" = None.
Proof. by repeat split. Qed.

(** A literal beyond the range of doubles is an infinity. *)
Example py_float_overflows :
  py_float "1e400" = Some (Infinite false)
  /\ py_float "-1e400" = Some (Infinite true)
  /\ py_float "1e308" = Some (Finite (inject_Z (10 ^ 308))).
Proof. by vm_compute. Qed.

(** [time.sleep] takes up to 9223372036 seconds and nothing negative. *)
Example time_sleep_samples :
  time_sleep (Finite (inject_Z max_sleep))
  = inr [Sleep (inject_Z max_sleep)]
  /\ time_sleep (Finite (inject_Z (max_sleep + 1)))
     = inl (PyError "OverflowError")
  /\ time_sleep (Finite (inject_Z (10 ^ 10))) = inl (PyError "OverflowError")
  /\ time_sleep (Finite (- (1 # 2))) = inl (PyError "ValueError")
  /\ time_sleep (Infinite false) = inl (PyError "OverflowError")
  /\ time_sleep NaN = inl (PyError "ValueError").
Proof. by vm_compute. Qed.

Example urlencode_sample :
  urlencode [("q", "a b/c"); ("lang", "fr~")] = "q=a+b%2Fc&lang=fr~".
Proof. reflexivity. Qed.

Example build_parameters_samples :
  build_parameters ["id"; "count"] [Some (PInt 42); None]
                   [("count", Some (PInt 5)); ("trim", Some (PBool true));
                    ("page", None)]
  = inr [("id", "42"); ("count", "5"); ("trim", "True")]
  /\ build_parameters ["id"] [Some (PInt 42)] [("id", None)]
     = inr [("id", "42")]
  /\ build_parameters ["id"] [None] [("id", Some (PInt 9))]
     = inr [("id", "9")]
  /\ build_parameters ["id"; "count"] [Some (PInt 42); Some (PInt 5)]
                      [("count", Some (PInt 1)); ("id", Some (PInt 2))]
     = inl (multiple_values "count").
Proof. by repeat split. Qed.

(** A call that succeeds at the first attempt: the lookup, the
    authentication, the request, the store, and the session closed. *)
Example bind_api_sample :
  exists rq,
    bind_api (world (fun _ => inr (response_200 "tweet")) ONone
                    (fun _ => false))
             demo_api demo_binding [Some (PInt 42)] [] "GET" None false true 1
    = Executed
        {| result_of := Returned (OModel None "tweet");
           api_of := set_last_response (response_200 "tweet") demo_api;
           self_of := demo_method;
           trace_of :=
             [CacheGet "/1.1/statuses/show.json?id=42"; ApplyAuth; Send rq;
              CacheStore "/1.1/statuses/show.json?id=42"
                         (OModel None "tweet");
              SessionClose] |}.
Proof. eexists. reflexivity. Qed.

(** A rate-limit header that is not an integer, or a negative
    [retry_delay], ends the call with [ValueError] after one request. *)
Example ill_formed_header_raises :
  let r := {| status_code := 500;
              headers := {[ "x-rate-limit-remaining" := "soon" ]};
              text := "Internal error" |} in
  let run := execute (world (fun _ => inr r) ONone (fun _ => false))
                     demo_api "GET" None false true 3 demo_method in
  result_of run = Raised (PyError "ValueError")
  /\ count_sends (trace_of run) = 1%nat.
Proof. by split. Qed.

Example negative_delay_raises :
  let api := {| api_id := 1; auth := None; cache := None; parser := "model";
                host := "api.twitter.com"; api_root := "/1.1";
                upload_host := "upload.twitter.com"; upload_root := "/1.1";
                retry_count := 2; retry_delay := - (1); retry_errors := [500];
                timeout := 60; wait_on_rate_limit := false;
                wait_on_rate_limit_notify := false; proxy := None;
                cached_result := false; last_response := None |} in
  let run := execute (world (fun _ => inr response_500) ONone (fun _ => false))
                     api "GET" None false true 3 demo_method in
  result_of run = Raised (PyError "ValueError")
  /\ count_sends (trace_of run) = 1%nat.
Proof. by split. Qed.

(** A delay longer than [time.sleep] can wait ends the call after the
    first request. *)
Example too_long_delay_raises :
  let api := {| api_id := 1; auth := None; cache := None; parser := "model";
                host := "api.twitter.com"; api_root := "/1.1";
                upload_host := "upload.twitter.com"; upload_root := "/1.1";
                retry_count := 2; retry_delay := inject_Z (10 ^ 10);
                retry_errors := [500];
                timeout := 60; wait_on_rate_limit := false;
                wait_on_rate_limit_notify := false; proxy := None;
                cached_result := false; last_response := None |} in
  let run := execute (world (fun _ => inr response_500) ONone (fun _ => false))
                     api "GET" None false true 3 demo_method in
  result_of run = Raised (PyError "OverflowError")
  /\ count_sends (trace_of run) = 1%nat.
Proof. by vm_compute. Qed.

(** ** Parameter binding *)

Lemma dict_mem_set (k k' v : string) (p : params) :
  dict_mem k (dict_set k' v p) = String.eqb k k' || dict_mem k p.
Proof.
  induction p as [|[k0 v0] p IH]; simpl.
  - by rewrite orb_false_r.
  - destruct (String.eqb_spec k' k0) as [->|Hne]; simpl.
    + destruct (String.eqb k k0); reflexivity.
    + rewrite IH. destruct (String.eqb k k0), (String.eqb k k'); reflexivity.
Qed.

Lemma bind_positional_overflow schema args :
  forall idx p i a,
    args !! i = Some (Some a) -> (length schema <= idx + i)%nat ->
    bind_positional schema idx args p = inl too_many.
Proof.
  induction args as [|x args IH]; intros idx p i a Hi Hlen.
  - destruct i; discriminate.
  - destruct i as [|i]; simpl in Hi.
    + injection Hi as ->. simpl.
      rewrite (lookup_ge_None_2 schema idx) by lia. reflexivity.
    + simpl. destruct x as [v|].
      * destruct (schema !! idx).
        -- apply (IH (S idx) _ i a Hi). lia.
        -- reflexivity.
      * apply (IH (S idx) _ i a Hi). lia.
Qed.

Lemma bind_positional_fits schema args :
  forall idx p,
    (forall i a, args !! i = Some (Some a) -> (idx + i < length schema)%nat) ->
    exists p', bind_positional schema idx args p = inr p' /\
      forall k, dict_mem k p' = true <->
                dict_mem k p = true \/
                exists i a, args !! i = Some (Some a) /\
                            schema !! (idx + i)%nat = Some k.
Proof.
  induction args as [|x args IH]; intros idx p Hfit.
  - exists p. split; [reflexivity|]. intros k. split; [tauto|].
    intros [H|(i & a & Hi & _)]; [exact H|]. destruct i; discriminate.
  - assert (Hrest : forall i a, args !! i = Some (Some a) ->
                                (S idx + i < length schema)%nat).
    { intros i a Hi. specialize (Hfit (S i) a Hi). lia. }
    destruct x as [v|]; simpl.
    + destruct (schema !! idx) as [name|] eqn:Hname.
      * destruct (IH (S idx) (dict_set name (py_str v) p) Hrest)
          as (p' & Hp' & Hmem).
        exists p'. split; [exact Hp'|]. intros k. rewrite Hmem, dict_mem_set.
        split.
        -- intros [H|(i & a & Hi & Hs)].
           ++ apply orb_true_iff in H as [H|H]; [|by left].
              apply String.eqb_eq in H as ->. right. exists 0%nat, v.
              rewrite Nat.add_0_r. done.
           ++ right. exists (S i), a. split; [exact Hi|].
              by replace (idx + S i)%nat with (S idx + i)%nat by lia.
        -- intros [H|(i & a & Hi & Hs)].
           ++ left. rewrite H. apply orb_true_r.
           ++ destruct i as [|i].
              ** left. rewrite Nat.add_0_r in Hs. rewrite Hname in Hs.
                 injection Hs as ->. by rewrite String.eqb_refl.
              ** right. exists i, a. split; [exact Hi|].
                 by replace (S idx + i)%nat with (idx + S i)%nat by lia.
      * exfalso. specialize (Hfit 0%nat v eq_refl).
        apply lookup_ge_None_1 in Hname. lia.
    + destruct (IH (S idx) p Hrest) as (p' & Hp' & Hmem).
      exists p'. split; [exact Hp'|]. intros k. rewrite Hmem. split.
      * intros [H|(i & a & Hi & Hs)]; [by left|]. right. exists (S i), a.
        split; [exact Hi|].
        by replace (idx + S i)%nat with (S idx + i)%nat by lia.
      * intros [H|(i & a & Hi & Hs)]; [by left|]. destruct i as [|i].
        -- discriminate.
        -- right. exists i, a. split; [exact Hi|].
           by replace (S idx + i)%nat with (idx + S i)%nat by lia.
Qed.

Lemma bind_keywords_collision kwargs :
  forall p k v,
    NoDup (map fst kwargs) ->
    In (k, Some v) kwargs -> dict_mem k p = true ->
    exists k' v' pre post,
      kwargs = pre ++ (k', Some v') :: post /\
      dict_mem k' p = true /\
      (forall k0 v0, In (k0, Some v0) pre -> dict_mem k0 p = false) /\
      bind_keywords kwargs p = inl (multiple_values k').
Proof.
  induction kwargs as [|[k1 o1] kwargs IH]; intros p k v Hnd Hin Hmem.
  - destruct Hin.
  - apply NoDup_cons in Hnd as [Hfresh Hnd]. simpl.
    destruct o1 as [a1|].
    + destruct (dict_mem k1 p) eqn:Hk1.
      * exists k1, a1, [], kwargs. repeat split; try done.
      * destruct Hin as [Heq|Hin]; [congruence|].
        destruct (IH (dict_set k1 (py_str a1) p) k v Hnd Hin)
          as (k' & v' & pre & post & -> & Hk' & Hpre & Hres).
        { rewrite dict_mem_set, Hmem. apply orb_true_r. }
        rewrite dict_mem_set in Hk'.
        exists k', v', ((k1, Some a1) :: pre), post.
        split; [reflexivity|]. split; [|split; [|exact Hres]].
        -- apply orb_true_iff in Hk' as [Hk'|Hk']; [|exact Hk'].
           apply String.eqb_eq in Hk' as ->. exfalso. apply Hfresh.
           apply list_elem_of_In, in_map_iff. exists (k1, Some v').
           split; [reflexivity|]. apply in_or_app. right. by left.
        -- intros k0 v0 [Heq|Hin0].
           ++ by injection Heq as <- <-.
           ++ specialize (Hpre k0 v0 Hin0). rewrite dict_mem_set in Hpre.
              by apply orb_false_iff in Hpre as [_ ?].
    + destruct Hin as [Heq|Hin]; [discriminate|].
      destruct (IH p k v Hnd Hin Hmem)
        as (k' & v' & pre & post & -> & Hk' & Hpre & Hres).
      exists k', v', ((k1, None) :: pre), post.
      repeat split; try done.
      intros k0 v0 [Heq|Hin0]; [discriminate|]. by apply (Hpre k0 v0).
Qed.

(** C2, as stated, fails: a positional argument that is [None] is skipped
    before the schema is consulted, so one argument more than the schema
    has names is accepted when the extra one is [None]. *)
Lemma too_many_parameters_none_is_skipped :
  length [Some (PInt 42); None] = S (length ["id"])
  /\ build_parameters ["id"] [Some (PInt 42); None] [] = inr [("id", "42")]
  /\ build_parameters ["id"] [Some (PInt 42); None] [] <> inl too_many.
Proof. repeat split. discriminate. Qed.

(** C2 (amended): for a schema of length [n], [n + 1] positional arguments
    of which the last is not [None] make [build_parameters] fail with
    [TweepError 'Too many parameters supplied!']. The failure happens in
    the constructor, so [bind_api] ends before [execute] is entered and
    nothing is sent; only the check of [require_auth], made earlier in the
    constructor, can fail first. *)
Theorem too_many_parameters (schema : list string)
        (args : list (option pyval)) (a : pyval)
        (kwargs : list (string * option pyval)) :
  length args = length schema ->
  build_parameters schema (args ++ [Some a]) kwargs = inl too_many
  /\ forall E api b http_method post_data return_cursors use_cache fuel,
      b_allowed_param b = schema ->
      bind_api E api b (args ++ [Some a]) kwargs http_method post_data
               return_cursors use_cache fuel
      = InitFailed
          (if b_require_auth b
              && match auth api with None => true | Some _ => false end
           then TweepError "Authentication required!" None None
           else too_many).
Proof.
  intros Hlen.
  assert (H : build_parameters schema (args ++ [Some a]) kwargs = inl too_many).
  { unfold build_parameters.
    rewrite (bind_positional_overflow schema _ 0 [] (length args) a);
      [reflexivity| |lia].
    rewrite lookup_app_r by lia. by rewrite Nat.sub_diag. }
  split; [exact H|].
  intros E api b http_method post_data return_cursors use_cache fuel Hb.
  unfold bind_api, init. rewrite Hb, H.
  by destruct (b_require_auth b && _).
Qed.

Lemma too_many_parameters_witness :
  build_parameters ["id"] ([Some (PInt 42)] ++ [Some (PInt 7)]) []
  = inl too_many.
Proof.
  exact (proj1 (too_many_parameters ["id"] [Some (PInt 42)] (PInt 7) []
                                    eq_refl)).
Defined.

(** C3, as stated, fails: the positional arguments are bound first, so a
    call that also has too many of them ends with the error of C2, and the
    name given twice is never looked at. *)
Lemma duplicate_parameter_masked :
  bound_positionally ["id"] [Some (PInt 42); Some (PInt 7)] "id"
  /\ given_by_keyword [("id", Some (PInt 9))] "id"
  /\ build_parameters ["id"] [Some (PInt 42); Some (PInt 7)]
                      [("id", Some (PInt 9))] = inl too_many
  /\ too_many <> multiple_values "id".
Proof.
  split; [|split; [|split]].
  - exists 0%nat, (PInt 42). split; reflexivity.
  - exists (PInt 9). by left.
  - reflexivity.
  - discriminate.
Qed.

(** C3 (amended): when every positional argument other than [None] has a
    place in the schema, and some name [k] is both bound positionally and
    given by keyword with values other than [None], [build_parameters]
    fails with [TweepError 'Multiple values for parameter k' supplied!']
    where [k'] is the first keyword, in the order of [kwargs], that is
    given twice in this way; [k'] is [k] when [k] is the only such name.
    [kwargs] is a dict: no key occurs twice in it. *)
Theorem duplicate_parameter (schema : list string)
        (args : list (option pyval)) (kwargs : list (string * option pyval))
        (k : string) :
  (forall i a, args !! i = Some (Some a) -> (i < length schema)%nat) ->
  NoDup (map fst kwargs) ->
  bound_positionally schema args k ->
  given_by_keyword kwargs k ->
  exists k' v' pre post,
    build_parameters schema args kwargs = inl (multiple_values k')
    /\ kwargs = pre ++ (k', Some v') :: post
    /\ bound_positionally schema args k'
    /\ (forall k0, given_by_keyword pre k0 ->
                   ~ bound_positionally schema args k0)
    /\ ((forall k0, bound_positionally schema args k0 ->
                    given_by_keyword kwargs k0 -> k0 = k) -> k' = k).
Proof.
  intros Hfit Hnd Hpos [v Hkw].
  destruct (bind_positional_fits schema args 0 [] Hfit) as (p & Hp & Hmem).
  assert (Hbound : forall k0, dict_mem k0 p = true <->
                              bound_positionally schema args k0).
  { intros k0. rewrite Hmem. simpl. unfold bound_positionally.
    split; [intros [?|?]; [discriminate|done]|by right]. }
  destruct (bind_keywords_collision kwargs p k v Hnd Hkw)
    as (k' & v' & pre & post & Hsplit & Hk' & Hpre & Hres).
  { by apply Hbound. }
  exists k', v', pre, post. unfold build_parameters. rewrite Hp.
  split; [exact Hres|]. split; [exact Hsplit|]. split; [by apply Hbound|].
  split.
  - intros k0 [v0 Hin0] Hb0. apply Hbound in Hb0.
    rewrite (Hpre k0 v0 Hin0) in Hb0. discriminate.
  - intros Honly. apply Honly; [by apply Hbound|].
    exists v'. rewrite Hsplit. apply in_or_app. right. by left.
Qed.

Lemma duplicate_parameter_witness :
  exists k' v' pre post,
    build_parameters ["id"; "count"] [Some (PInt 42)]
                     [("count", Some (PInt 5)); ("id", Some (PInt 9))]
    = inl (multiple_values k')
    /\ [("count", Some (PInt 5)); ("id", Some (PInt 9))]
       = pre ++ (k', Some v') :: post
    /\ bound_positionally ["id"; "count"] [Some (PInt 42)] k'
    /\ (forall k0, given_by_keyword pre k0 ->
                   ~ bound_positionally ["id"; "count"] [Some (PInt 42)] k0)
    /\ ((forall k0, bound_positionally ["id"; "count"] [Some (PInt 42)] k0 ->
                    given_by_keyword
                      [("count", Some (PInt 5)); ("id", Some (PInt 9))] k0 ->
                    k0 = "id") -> k' = "id").
Proof.
  apply (duplicate_parameter ["id"; "count"] [Some (PInt 42)]
           [("count", Some (PInt 5)); ("id", Some (PInt 9))] "id").
  - intros [|[|i]] a; [simpl; lia|discriminate|discriminate].
  - apply (bool_decide_unpack _). by vm_compute.
  - exists 0%nat, (PInt 42). split; reflexivity.
  - exists (PInt 9). right. by left.
Defined.

(** ** What the retry loop leaves alone *)

Lemma rate_limit_only_refl m : rate_limit_only m m.
Proof. exists (remaining_calls m), (reset_time m). by destruct m. Qed.

Lemma rate_limit_only_trans m1 m2 m3 :
  rate_limit_only m1 m2 -> rate_limit_only m2 m3 -> rate_limit_only m1 m3.
Proof. intros (a & b & ->) (c & d & ->). by exists c, d. Qed.

Lemma rate_limit_only_key m m' :
  rate_limit_only m m' ->
  cache_key m' = cache_key m /\ m_parser m' = m_parser m
  /\ m_params m' = m_params m.
Proof. by intros (a & b & ->). Qed.

Lemma count_sends_app (t1 t2 : list event) :
  count_sends (t1 ++ t2) = (count_sends t1 + count_sends t2)%nat.
Proof. unfold count_sends. by rewrite List.filter_app, length_app. Qed.

Lemma time_sleep_events d evs :
  time_sleep d = inr evs -> exists q, d = Finite q /\ evs = [Sleep q].
Proof.
  destruct d as [q| |]; simpl; try discriminate.
  destruct (_ || _); [discriminate|].
  destruct (Qle_bool 0 q); [|discriminate]. intros [= <-]. by exists q.
Qed.

Section Loop.

Variable E : env.
Variable api : API.
Variable method : string.
Variable post_data : option string.

Local Abbreviation iter := (iteration E api method post_data).
Local Abbreviation loop := (retry_loop E api method post_data).
Local Abbreviation rq_of := (request_of E api method post_data).
Local Abbreviation no_cache tr :=
  (forallb (fun e => negb (is_cache_event e)) tr = true).

Lemma gate_quiet m k :
  count_sends (fst (gate E api m k)) = 0%nat
  /\ no_cache (fst (gate E api m k)).
Proof.
  unfold gate.
  destruct (wait_on_rate_limit api), (reset_time m), (remaining_calls m);
    try done.
  destruct (_ <? 1); [|done]. destruct (0 <? _); [|done].
  destruct (time_sleep _) as [e|evs] eqn:Hsl.
  - by destruct (wait_on_rate_limit_notify api).
  - apply time_sleep_events in Hsl as (q & _ & ->).
    by destruct (wait_on_rate_limit_notify api).
Qed.

Lemma authenticate_quiet k :
  count_sends (snd (authenticate E api k)) = 0%nat
  /\ no_cache (snd (authenticate E api k)).
Proof. unfold authenticate. by destruct (auth api). Qed.

Lemma update_rate_limit_frame r m :
  match update_rate_limit r m with
  | inl (_, m') | inr m' => rate_limit_only m m'
  end.
Proof.
  unfold update_rate_limit.
  destruct (headers r !! "x-rate-limit-remaining") as [s|].
  - destruct (py_int s) as [n|]; [|apply rate_limit_only_refl].
    destruct (headers r !! "x-rate-limit-reset") as [s'|];
      [destruct (py_int s')|]; by eexists _, _.
  - destruct (headers r !! "x-rate-limit-reset") as [s'|];
      [destruct (py_int s')|]; by eexists _, _.
Qed.

Lemma prelude_quiet st :
  count_sends (prelude E api st) = 0%nat /\ no_cache (prelude E api st).
Proof.
  unfold prelude. rewrite count_sends_app, forallb_app.
  destruct (gate_quiet (self st) (sends st)) as [-> ->].
  by destruct (authenticate_quiet (sends st)) as [-> ->].
Qed.

(** A request and what follows it, after a prelude. *)
Lemma one_send (pre post : list event) (rq : request) :
  count_sends pre = 0%nat -> no_cache pre ->
  count_sends post = 0%nat -> no_cache post ->
  count_sends (pre ++ Send rq :: post) = 1%nat
  /\ no_cache (pre ++ Send rq :: post).
Proof.
  intros Hc Hq Hc' Hq'. rewrite count_sends_app, forallb_app, Hc, Hq.
  change (count_sends (Send rq :: post)) with (S (count_sends post)).
  rewrite Hc'. by split.
Qed.

(** One run of the loop body ends at the gate, when [time.sleep] refuses
    the length asked for, without a request; or it issues exactly one
    request, touches [self] only in its rate-limit fields, and leaves in
    [resp] the response it received. *)
Lemma iteration_spec st res evs :
  iter st = (res, evs) ->
  let st' := state_of_step res in
  (exists e,
      snd (gate E api (self st) (sends st)) = Some e
      /\ res = Throw e st
      /\ evs = fst (gate E api (self st) (sends st))
      /\ count_sends evs = 0%nat /\ no_cache evs)
  \/ snd (gate E api (self st) (sends st)) = None
     /\ sends st' = S (sends st)
     /\ rate_limit_only (self st) (self st')
     /\ count_sends evs = 1%nat
     /\ no_cache evs
     /\ (exists post, evs = prelude E api st ++ Send (rq_of st) :: post
                      /\ count_sends post = 0%nat)
     /\ match session_request E (sends st) (rq_of st) with
        | inr r => resp_var st' = Some r
        | inl e =>
            res = Throw (TweepError ("Failed to send request: " +:+ e)
                                    None None) st'
            /\ resp_var st' = resp_var st
        end.
Proof.
  unfold iteration, request_of.
  destruct (prelude_quiet st) as [Hc Hq]. revert Hc Hq. unfold prelude.
  destruct (gate_quiet (self st) (sends st)) as [Hgc Hgq]. revert Hgc Hgq.
  destruct (gate E api (self st) (sends st)) as [g [e|]]; cbn [fst snd].
  { intros Hgc Hgq _ _ [= <- <-]. left. by exists e. }
  intros _ _.
  destruct (authenticate E api (sends st)) as [cr a]. cbn [fst snd].
  set (rq := make_request api method post_data (self st) cr).
  intros Hc Hq.
  pose proof (fun post => one_send (g ++ a) post rq Hc Hq) as Hshape.
  assert (Hdone : forall post res0,
             count_sends post = 0%nat -> no_cache post ->
             sends (state_of_step res0) = S (sends st) ->
             rate_limit_only (self st) (self (state_of_step res0)) ->
             match session_request E (sends st) rq with
             | inr r => resp_var (state_of_step res0) = Some r
             | inl e =>
                 res0 = Throw (TweepError ("Failed to send request: " +:+ e)
                                          None None) (state_of_step res0)
                 /\ resp_var (state_of_step res0) = resp_var st
             end ->
             (res0, g ++ a ++ Send rq :: post) = (res, evs) ->
             sends (state_of_step res) = S (sends st)
             /\ rate_limit_only (self st) (self (state_of_step res))
             /\ count_sends evs = 1%nat
             /\ no_cache evs
             /\ (exists post', evs = (g ++ a) ++ Send rq :: post'
                               /\ count_sends post' = 0%nat)
             /\ match session_request E (sends st) rq with
                | inr r => resp_var (state_of_step res) = Some r
                | inl e =>
                    res = Throw (TweepError ("Failed to send request: " +:+ e)
                                            None None) (state_of_step res)
                    /\ resp_var (state_of_step res) = resp_var st
                end).
  { intros post res0 Hp Hp' Hs Hfr Hr [= <- <-]. rewrite app_assoc.
    destruct (Hshape post Hp Hp'). repeat split; try done. by exists post. }
  intros Hit. right. split; [done|]. revert Hit.
  destruct (session_request E (sends st) rq) as [e|r].
  { apply (Hdone []); try done. apply rate_limit_only_refl. }
  unfold after_response. cbn [retries_performed sends self resp_var].
  pose proof (update_rate_limit_frame r (self st)) as Hfr.
  destruct (is_2xx (status_code r)).
  { apply (Hdone []); try done. apply rate_limit_only_refl. }
  destruct (update_rate_limit r (self st)) as [[e m]|m];
    [by apply (Hdone [])|].
  destruct (classify api r m) as [|d| |e]; try by apply (Hdone []).
  destruct (time_sleep d) as [e|evs'] eqn:Hsl; [by apply (Hdone [])|].
  apply time_sleep_events in Hsl as (q & -> & ->).
  by apply (Hdone [Sleep q]).
Qed.

(** What every run of the loop body keeps. *)
Lemma iteration_frame st res evs :
  iter st = (res, evs) ->
  let st' := state_of_step res in
  (sends st <= sends st')%nat
  /\ count_sends evs = (sends st' - sends st)%nat
  /\ rate_limit_only (self st) (self st')
  /\ no_cache evs.
Proof.
  intros Hit.
  destruct (iteration_spec st res evs Hit)
    as [(e & _ & -> & _ & Hc & Hq)|(_ & Hs & Hfr & Hc & Hq & _)]; cbn.
  - rewrite Hc, Nat.sub_diag. repeat split; try done.
    apply rate_limit_only_refl.
  - rewrite Hs, Hc. repeat split; try done; lia.
Qed.

(** The loop issues one request per iteration that passes the gate,
    touches [self] only in its rate-limit fields, and when it ends
    normally after at least one iteration, [resp] holds the response to
    the last request. *)
Lemma retry_loop_spec fuel :
  forall st res evs,
    loop fuel st = (res, evs) ->
    let st' := state_of_loop res in
    (sends st <= sends st')%nat
    /\ count_sends evs = (sends st' - sends st)%nat
    /\ rate_limit_only (self st) (self st')
    /\ no_cache evs
    /\ match res with
       | LoopExit _ =>
           (sends st' = sends st /\ resp_var st' = resp_var st)
           \/ (sends st < sends st')%nat
              /\ exists rq r, session_request E (pred (sends st')) rq = inr r
                              /\ resp_var st' = Some r
       | _ => True
       end.
Proof.
  induction fuel as [|fuel IH]; intros st res evs; simpl.
  - destruct (_ <? _); intros [= <- <-]; simpl;
      rewrite Nat.sub_diag; repeat split; auto using rate_limit_only_refl.
  - destruct (_ <? _).
    2:{ intros [= <- <-]; simpl. rewrite Nat.sub_diag.
        repeat split; auto using rate_limit_only_refl. }
    destruct (iter st) as [sr evs1] eqn:Hit.
    pose proof (iteration_frame st sr evs1 Hit) as (Hle1 & Hc & Hfr & Hq).
    assert (Hrecv : forall st1,
               sr = Continue st1 \/ sr = Break st1 ->
               sends st1 = S (sends st)
               /\ exists rq r, session_request E (sends st) rq = inr r
                               /\ resp_var st1 = Some r).
    { intros st1 Hsr.
      destruct (iteration_spec st sr evs1 Hit)
        as [(e & _ & -> & _)|(_ & Hs & _ & _ & _ & _ & Hr)];
        [by destruct Hsr|].
      destruct (session_request E (sends st) (rq_of st)) as [e|r] eqn:Hsr'.
      - destruct Hr as [Hthrow _].
        destruct Hsr as [-> | ->]; discriminate Hthrow.
      - destruct Hsr as [-> | ->]; (split; [done|by exists (rq_of st), r]). }
    cbn [state_of_step] in *.
    destruct sr as [st1|st1|e st1]; cbn [state_of_step] in *.
    + destruct (Hrecv st1 (or_introl eq_refl)) as (Hs & rq & r & Hr & Hresp).
      destruct (loop fuel st1) as [res2 evs2] eqn:Hl.
      intros [= <- <-].
      destruct (IH st1 res2 evs2 Hl) as (Hle & Hc2 & Hfr2 & Hq2 & Hr2).
      cbn zeta in *.
      rewrite count_sends_app, forallb_app, Hc, Hc2, Hq, Hq2.
      split; [lia|]. split; [lia|].
      split; [by eapply rate_limit_only_trans|]. split; [done|].
      destruct res2 as [st2|e st2|st2]; try done.
      cbn [state_of_loop] in *. right.
      destruct Hr2 as [[Hs2 Hr2]|[Hlt Hr2]].
      * split; [lia|]. rewrite Hs2, Hs, Hr2. cbn [pred].
        by exists rq, r.
      * split; [lia|done].
    + destruct (Hrecv st1 (or_intror eq_refl)) as (Hs & rq & r & Hr & Hresp).
      intros [= <- <-]. cbn [state_of_loop].
      split; [lia|]. split; [done|]. do 2 (split; [done|]). right.
      split; [lia|]. rewrite Hs. cbn [pred]. by exists rq, r.
    + intros [= <- <-]. cbn [state_of_loop]. done.
Qed.

End Loop.

(** ** One iteration, case by case *)

Lemma nanoseconds_seconds (n : Z) :
  0 <= n -> nanoseconds (inject_Z n) = n * 10 ^ 9.
Proof.
  intros Hn. unfold nanoseconds. cbn [inject_Z Qnum Qden].
  destruct (Z.leb_spec 0 (n * 10 ^ 9)); [|lia].
  rewrite Z.div_1_r. lia.
Qed.

(** [time.sleep] on a whole number of seconds. *)
Lemma time_sleep_seconds (n : Z) :
  0 <= n ->
  time_sleep (Finite (inject_Z n))
  = if n <=? max_sleep then inr [Sleep (inject_Z n)]
    else inl (PyError "OverflowError").
Proof.
  intros Hn. unfold time_sleep. rewrite (nanoseconds_seconds n Hn).
  unfold max_sleep_ns, max_sleep.
  change (2 ^ 63) with 9223372036854775808.
  change (10 ^ 9) with 1000000000.
  assert (Hq : Qle_bool 0 (inject_Z n) = true).
  { apply Qle_bool_iff. unfold Qle. cbn. lia. }
  rewrite Hq.
  destruct (Z.leb_spec n 9223372036);
    repeat match goal with
           | |- context [?a <? ?b] => destruct (Z.ltb_spec a b)
           end; cbn [orb]; try done; lia.
Qed.

Lemma time_sleep_sleepable (q : Q) :
  sleepable q -> time_sleep (Finite q) = inr [Sleep q].
Proof.
  intros [Hq Hns]. unfold time_sleep.
  assert (Hpos : 0 <= nanoseconds q).
  { unfold nanoseconds. unfold Qle in Hq. cbn in Hq.
    destruct (Z.leb_spec 0 (Qnum q * 10 ^ 9)); [|lia].
    apply Z.div_pos; lia. }
  destruct (Z.ltb_spec (nanoseconds q) (- 2 ^ 63)); [lia|].
  destruct (Z.ltb_spec max_sleep_ns (nanoseconds q)); [lia|].
  cbn [orb]. by rewrite (proj2 (Qle_bool_iff 0 q) Hq).
Qed.

(** The reset time after the headers were read: the one announced, or
    the one known before. *)
Lemma update_rate_limit_reset r m m' :
  update_rate_limit r m = inr m' ->
  reset_time m' = reset_time m
  \/ exists s t,
      headers r !! "x-rate-limit-reset" = Some s /\ py_int s = Some t
      /\ reset_time m' = Some t.
Proof.
  unfold update_rate_limit.
  destruct (headers r !! "x-rate-limit-remaining") as [s|];
    [destruct (py_int s); [|discriminate]|];
    (destruct (headers r !! "x-rate-limit-reset") as [s'|];
     [destruct (py_int s') as [t|] eqn:Ht; [|discriminate]|]);
    intros [= <-]; first [by left | right; by eexists _, _].
Qed.

Section Cases.

Variable E : env.
Variable api : API.
Variable method : string.
Variable post_data : option string.

Local Abbreviation iter := (iteration E api method post_data).
Local Abbreviation loop := (retry_loop E api method post_data).
Local Abbreviation rq_of := (request_of E api method post_data).
Local Abbreviation pre := (prelude E api).

(** What the gate does: nothing, a sleep until one second after the
    reset, or an [OverflowError] when that is too long a sleep. *)
Lemma gate_cases m k :
  gate E api m k
  = if wait_on_rate_limit api then
      match reset_time m, remaining_calls m with
      | Some rt, Some rc =>
          if (rc <? 1) && (0 <? rt - clock E k) then
            let log := if wait_on_rate_limit_notify api
                       then [LogWarning (rt - clock E k)] else [] in
            if rt - clock E k + 1 <=? max_sleep
            then (log ++ [Sleep (inject_Z (rt - clock E k + 1))], None)
            else (log, Some (PyError "OverflowError"))
          else ([], None)
      | _, _ => ([], None)
      end
    else ([], None).
Proof.
  unfold gate.
  destruct (wait_on_rate_limit api), (reset_time m) as [rt|],
    (remaining_calls m) as [rc|]; try done.
  destruct (rc <? 1); [|done].
  destruct (Z.ltb_spec 0 (rt - clock E k)); [|done]. cbn [andb].
  rewrite time_sleep_seconds by lia.
  by destruct (_ <=? max_sleep).
Qed.

Lemma gate_passes_None m k :
  gate_passes E api m k -> snd (gate E api m k) = None.
Proof.
  unfold gate_passes. rewrite gate_cases.
  destruct (wait_on_rate_limit api); [|done].
  destruct (reset_time m) as [rt|], (remaining_calls m) as [rc|]; try done.
  intros Hp. destruct (Z.ltb_spec rc 1); [|done].
  destruct (0 <? _); [|done]. cbn [andb].
  specialize (Hp eq_refl rt rc eq_refl eq_refl H).
  by destruct (Z.leb_spec (rt - clock E k + 1) max_sleep); [|lia].
Qed.

Lemma gate_open_nil m k : gate_open api m -> gate E api m k = ([], None).
Proof.
  unfold gate_open. rewrite gate_cases.
  destruct (wait_on_rate_limit api); [|done].
  destruct (reset_time m) as [rt|], (remaining_calls m) as [rc|]; try done.
  intros [?|[?|[?|(rc' & [= <-] & Hrc)]]]; try done.
  by destruct (Z.ltb_spec rc 1); [lia|].
Qed.

(** The gate raises: the iteration ends there, before authenticating. *)
Lemma iteration_gate st e :
  snd (gate E api (self st) (sends st)) = Some e ->
  iter st = (Throw e st, fst (gate E api (self st) (sends st))).
Proof.
  unfold iteration. by destruct (gate E api (self st) (sends st)) as [g [e'|]];
    [intros [= ->]|].
Qed.

Lemma iteration_transport st e :
  snd (gate E api (self st) (sends st)) = None ->
  session_request E (sends st) (rq_of st) = inl e ->
  iter st
  = (Throw (TweepError ("Failed to send request: " +:+ e) None None) (sent st),
     pre st ++ [Send (rq_of st)]).
Proof.
  unfold iteration, request_of, prelude, sent.
  destruct (gate E api (self st) (sends st)) as [g [e'|]]; [done|]. intros _.
  destruct (authenticate E api (sends st)) as [cr a]. cbn [fst snd].
  intros ->. by rewrite <- app_assoc.
Qed.

Lemma iteration_2xx st r :
  snd (gate E api (self st) (sends st)) = None ->
  session_request E (sends st) (rq_of st) = inr r ->
  is_2xx (status_code r) = true ->
  iter st
  = (Break (received r (self st) (retries_performed st) st),
     pre st ++ [Send (rq_of st)]).
Proof.
  unfold iteration, request_of, prelude, received.
  destruct (gate E api (self st) (sends st)) as [g [e'|]]; [done|]. intros _.
  destruct (authenticate E api (sends st)) as [cr a]. cbn [fst snd].
  intros -> H. unfold after_response.
  cbn [retries_performed sends self resp_var]. rewrite H.
  by rewrite <- app_assoc.
Qed.

Lemma iteration_bad_header st r e m' :
  snd (gate E api (self st) (sends st)) = None ->
  session_request E (sends st) (rq_of st) = inr r ->
  is_2xx (status_code r) = false ->
  update_rate_limit r (self st) = inl (e, m') ->
  iter st
  = (Throw e (received r m' (retries_performed st) st),
     pre st ++ [Send (rq_of st)]).
Proof.
  unfold iteration, request_of, prelude, received.
  destruct (gate E api (self st) (sends st)) as [g [e'|]]; [done|]. intros _.
  destruct (authenticate E api (sends st)) as [cr a]. cbn [fst snd].
  intros -> H Hu. unfold after_response.
  cbn [retries_performed sends self resp_var]. rewrite H, Hu.
  by rewrite <- app_assoc.
Qed.

Lemma iteration_classified st r m' :
  snd (gate E api (self st) (sends st)) = None ->
  session_request E (sends st) (rq_of st) = inr r ->
  is_2xx (status_code r) = false ->
  update_rate_limit r (self st) = inr m' ->
  iter st
  = match classify api r m' with
    | RetryNow =>
        (Continue (received r m' (retries_performed st) st),
         pre st ++ [Send (rq_of st)])
    | RetryAfter d =>
        match time_sleep d with
        | inl e =>
            (Throw e (received r m' (retries_performed st) st),
             pre st ++ [Send (rq_of st)])
        | inr evs =>
            (Continue (received r m' (retries_performed st + 1) st),
             pre st ++ Send (rq_of st) :: evs)
        end
    | GiveUp =>
        (Break (received r m' (retries_performed st) st),
         pre st ++ [Send (rq_of st)])
    | Fault e =>
        (Throw e (received r m' (retries_performed st) st),
         pre st ++ [Send (rq_of st)])
    end.
Proof.
  unfold iteration, request_of, prelude, received.
  destruct (gate E api (self st) (sends st)) as [g [e'|]]; [done|]. intros _.
  destruct (authenticate E api (sends st)) as [cr a]. cbn [fst snd].
  intros -> H Hu. unfold after_response.
  cbn [retries_performed sends self resp_var]. rewrite H, Hu.
  destruct (classify api r m') as [|d| |e]; try by rewrite <- app_assoc.
  destruct (time_sleep d); by rewrite <- app_assoc.
Qed.

(** With waiting disabled the loop body never comes back to the loop test
    without having counted a retry. *)
Lemma iteration_counts st st' evs :
  wait_on_rate_limit api = false ->
  iter st = (Continue st', evs) ->
  retries_performed st' = retries_performed st + 1.
Proof.
  intros Hw.
  assert (Hg : snd (gate E api (self st) (sends st)) = None).
  { rewrite gate_open_nil; [done|by left]. }
  destruct (session_request E (sends st) (rq_of st)) as [e|r] eqn:Hs.
  { rewrite (iteration_transport st e Hg Hs). discriminate. }
  destruct (is_2xx (status_code r)) eqn:H2.
  { rewrite (iteration_2xx st r Hg Hs H2). discriminate. }
  destruct (update_rate_limit r (self st)) as [[e m']|m'] eqn:Hu.
  { rewrite (iteration_bad_header st r e m' Hg Hs H2 Hu). discriminate. }
  rewrite (iteration_classified st r m' Hg Hs H2 Hu).
  unfold classify. rewrite Hw, andb_false_r.
  destruct (_ && _); [discriminate|].
  destruct (time_sleep _); [discriminate|]. by intros [= <- _].
Qed.

(** A property of traces that holds of every iteration begun with [self]
    equal to [m0] up to its rate-limit fields, and that is kept by
    concatenation, holds of the loop. *)
Lemma retry_loop_events (P : list event -> Prop) (m0 : APIMethod) :
  P [] ->
  (forall a b, P a -> P b -> P (a ++ b)) ->
  (forall st res evs,
      rate_limit_only m0 (self st) -> iter st = (res, evs) -> P evs) ->
  forall fuel st, rate_limit_only m0 (self st) -> P (snd (loop fuel st)).
Proof.
  intros Hnil Happ Hiter. induction fuel as [|fuel IH]; intros st Hm; simpl.
  - by destruct (_ <? _).
  - destruct (_ <? _); [|done].
    destruct (iter st) as [res evs] eqn:Hit.
    pose proof (Hiter st res evs Hm Hit) as HP.
    pose proof (iteration_frame E api method post_data st res evs Hit)
      as (_ & _ & Hfr & _).
    destruct res as [st'|st'|e st']; try done.
    specialize (IH st' (rate_limit_only_trans _ _ _ Hm Hfr)).
    destruct (loop fuel st') as [res' evs']. by apply Happ.
Qed.

End Cases.

(** ** The retry budget *)

Lemma update_rate_limit_ok r m :
  rate_limit_headers_ok r = true -> exists m', update_rate_limit r m = inr m'.
Proof.
  unfold rate_limit_headers_ok, int_header_ok, update_rate_limit.
  intros [H1 H2]%andb_true_iff.
  destruct (headers r !! "x-rate-limit-remaining") as [s|];
    [destruct (py_int s); [|discriminate]|];
    (destruct (headers r !! "x-rate-limit-reset") as [s'|];
     [destruct (py_int s'); [|discriminate]|]); eauto.
Qed.

Lemma error_of_frame E m m' r :
  rate_limit_only m m' -> error_of E m' r = error_of E m r.
Proof. by intros (a & b & ->). Qed.

Lemma execute_miss E api method post_data return_cursors use_cache fuel m :
  cache_hit E api method use_cache m = false ->
  exists tr0,
    execute E api method post_data return_cursors use_cache fuel m
    = network_phase E api method post_data return_cursors use_cache fuel
                    (set_cached_result false api) m tr0
    /\ tr0 = match cache_in_use api method use_cache with
             | Some _ => [CacheGet (cache_key m)]
             | None => []
             end.
Proof.
  unfold cache_hit, execute. intros H.
  destruct (cache_in_use api method use_cache) as [c|]; [rewrite H|]; eauto.
Qed.

Section Budget.

Variable E : env.
Variable api : API.
Variable method : string.
Variable post_data : option string.

Local Abbreviation iter := (iteration E api method post_data).
Local Abbreviation loop := (retry_loop E api method post_data).

(** Every request is answered, with a plainly retryable status and
    well-formed rate-limit headers; the configured delay is one
    [time.sleep] accepts; and when waiting on rate limits is on, the reset
    times the responses announce are within reach of [time.sleep]. *)
Hypothesis always_retryable :
  forall k rq, exists r,
    session_request E k rq = inr r
    /\ plainly_retryable api (status_code r) = true
    /\ rate_limit_headers_ok r = true.
Hypothesis delay_ok : sleepable (retry_delay api).
Hypothesis resets_ok :
  wait_on_rate_limit api = true ->
  forall k rq r s t,
    session_request E k rq = inr r ->
    headers r !! "x-rate-limit-reset" = Some s -> py_int s = Some t ->
    reset_reachable E t.

Lemma known_reset_passes m k : known_reset_ok E api m -> gate_passes E api m k.
Proof. intros H Hw rt rc Hrt _ _. by apply (H Hw rt Hrt k). Qed.

Lemma retryable_iteration st :
  known_reset_ok E api (self st) ->
  exists st',
    iter st = (Continue st',
               prelude E api st
               ++ [Send (request_of E api method post_data st);
                   Sleep (retry_delay api)])
    /\ retries_performed st' = retries_performed st + 1
    /\ sends st' = S (sends st)
    /\ known_reset_ok E api (self st')
    /\ exists r,
        session_request E (sends st) (request_of E api method post_data st)
        = inr r
        /\ resp_var st' = Some r.
Proof.
  intros Hk.
  pose proof (gate_passes_None E api _ _ (known_reset_passes _ (sends st) Hk))
    as Hg.
  destruct (always_retryable (sends st) (request_of E api method post_data st))
    as (r & Hsend & Hst & Hh).
  unfold plainly_retryable in Hst.
  apply andb_true_iff in Hst as [[H2xx Hrl]%andb_true_iff Hre].
  apply negb_true_iff in H2xx, Hrl.
  destruct (update_rate_limit_ok r (self st) Hh) as [m' Hu].
  rewrite (iteration_classified E api method post_data st r m' Hg Hsend
                                H2xx Hu).
  unfold classify. rewrite Hrl.
  assert (Hge : (match retry_errors api with [] => false | _ => true end
                 && negb (mem_Z (status_code r) (retry_errors api))) = false).
  { destruct (retry_errors api); [done|]. by rewrite Hre. }
  rewrite Hge, (time_sleep_sleepable _ delay_ok).
  eexists. split; [reflexivity|]. repeat split; try done.
  - intros Hw t Ht. cbn [received self] in Ht.
    destruct (update_rate_limit_reset r (self st) m' Hu)
      as [Heq|(s & t' & Hs & Hp & Heq)].
    + rewrite Heq in Ht. by apply (Hk Hw).
    + rewrite Heq in Ht. injection Ht as <-.
      by apply (resets_ok Hw _ _ _ _ _ Hsend Hs Hp).
  - by exists r.
Qed.

(** With [n] retries left in the budget the loop issues exactly [n]
    requests and ends normally. *)
Lemma retryable_loop n :
  forall fuel st,
    known_reset_ok E api (self st) ->
    retry_count api + 1 - retries_performed st = Z.of_nat n ->
    (n <= fuel)%nat ->
    exists st' evs,
      loop fuel st = (LoopExit st', evs)
      /\ sends st' = (sends st + n)%nat.
Proof.
  induction n as [|n IH]; intros fuel st Hk Hleft Hfuel.
  - exists st, []. split; [|lia].
    destruct fuel; simpl;
      (destruct (Z.ltb_spec (retries_performed st) (retry_count api + 1));
       [lia|done]).
  - destruct fuel as [|fuel]; [lia|]. simpl.
    destruct (Z.ltb_spec (retries_performed st) (retry_count api + 1)); [|lia].
    destruct (retryable_iteration st Hk) as (st1 & Hit & Hre & Hs & Hk1 & _).
    rewrite Hit.
    destruct (IH fuel st1 Hk1) as (st' & evs & Hl & Hs'); [lia|lia|].
    rewrite Hl. eexists _, _. split; [reflexivity|]. lia.
Qed.

End Budget.




(** ** The rate-limit gate and the delay before a retry *)

Section Iteration.

Variable E : env.
Variable api : API.
Variable method : string.
Variable post_data : option string.

Local Abbreviation iter := (iteration E api method post_data).
Local Abbreviation loop := (retry_loop E api method post_data).
Local Abbreviation rq_of := (request_of E api method post_data).

(** When the loop test passes, the trace of the loop begins with the trace
    of one run of its body, and goes on with the loop resumed when the
    body ends in [Continue]. *)
Lemma retry_loop_unfold fuel st :
  retries_performed st < retry_count api + 1 ->
  snd (loop (S fuel) st)
  = snd (iter st) ++ match fst (iter st) with
                     | Continue st' => snd (loop fuel st')
                     | _ => []
                     end.
Proof.
  intros Hlt. simpl.
  destruct (Z.ltb_spec (retries_performed st) (retry_count api + 1)); [|lia].
  destruct (iter st) as [[st'|st'|e st'] evs]; simpl.
  - by destruct (loop fuel st').
  - by rewrite app_nil_r.
  - by rewrite app_nil_r.
Qed.

End Iteration.






(** ** Iterations that do not use the budget *)

Section Spent.

Variable E : env.
Variable api : API.
Variable method : string.
Variable post_data : option string.

(** Every request is answered by a 420 or 429 whose headers say that no
    call remains. *)
Hypothesis always_spent :
  forall k rq, exists r s,
    session_request E k rq = inr r
    /\ (status_code r = 420 \/ status_code r = 429)
    /\ headers r !! "x-rate-limit-remaining" = Some s
    /\ py_int s = Some 0
    /\ int_header_ok r "x-rate-limit-reset" = true.
Hypothesis waiting : wait_on_rate_limit api = true.

(** The reset times the responses announce are within reach of
    [time.sleep]. *)
Hypothesis resets_ok :
  forall k rq r s t,
    session_request E k rq = inr r ->
    headers r !! "x-rate-limit-reset" = Some s -> py_int s = Some t ->
    reset_reachable E t.

Lemma spent_loop n :
  forall st,
    known_reset_ok E api (self st) ->
    retries_performed st < retry_count api + 1 ->
    exists st' evs,
      retry_loop E api method post_data n st = (LoopOutOfFuel st', evs)
      /\ sends st' = (sends st + n)%nat.
Proof.
  induction n as [|n IH]; intros st Hk Hlt; simpl;
    (destruct (Z.ltb_spec (retries_performed st) (retry_count api + 1));
     [|lia]).
  - exists st, []. split; [reflexivity|lia].
  - destruct (always_spent (sends st) (request_of E api method post_data st))
      as (r & s & Hsend & Hst & Hrem & Hzero & Hreset).
    assert (Hupd : exists m', update_rate_limit r (self st) = inr m'
                              /\ remaining_calls m' = Some 0).
    { unfold update_rate_limit, int_header_ok in *. rewrite Hrem, Hzero.
      destruct (headers r !! "x-rate-limit-reset") as [s'|];
        [destruct (py_int s'); [|discriminate]|]; eauto. }
    destruct Hupd as (m' & Hupd & Hm').
    assert (H2xx : is_2xx (status_code r) = false).
    { by destruct Hst as [-> | ->]. }
    rewrite (iteration_classified
               E api method post_data st r m'
               (gate_passes_None E api _ _ (known_reset_passes E api _ _ Hk))
               Hsend H2xx Hupd).
    assert (Hcl : classify api r m' = RetryNow).
    { unfold classify. rewrite waiting, Hm'.
      by destruct Hst as [-> | ->]. }
    rewrite Hcl.
    assert (Hk' : known_reset_ok E api m').
    { intros _ t Ht.
      destruct (update_rate_limit_reset r (self st) m' Hupd)
        as [Heq|(s' & t' & Hs' & Hp & Heq)]; rewrite Heq in Ht.
      - by apply (Hk waiting).
      - injection Ht as <-. by apply (resets_ok _ _ _ _ _ Hsend Hs' Hp). }
    destruct (IH (received r m' (retries_performed st) st) Hk' Hlt)
      as (st' & evs & -> & Hs).
    eexists _, _. split; [reflexivity|]. simpl in Hs. lia.
Qed.

End Spent.



(** ** The cache *)

Lemma restore_api_elements (a : nat) (l : list pyobj) :
  length (map (set_api_ref a) l) = length l
  /\ forall i o, l !! i = Some o ->
                 map (set_api_ref a) l !! i = Some (set_api_ref a o).
Proof.
  split; [apply length_map|].
  induction l as [|x l IH]; intros [|i] o H; try discriminate.
  - by injection H as ->.
  - by apply IH.
Qed.

(** C5, as stated, fails for a cached value that is falsy. The cache
    holds the empty list under the key of the call: the lookup returns a
    value, yet line 87 ([if cache_result:]) takes it for a miss, and the
    call authenticates, sends a request, returns the parsed response and
    leaves [api.cached_result] cleared. *)
Lemma cached_falsy_value_is_a_miss :
  let E := world (fun _ => inr (response_200 "fresh")) (OList [])
                 (fun _ => false) in
  let run := execute E demo_api "GET" None false true 3 demo_method in
  cache demo_api = Some "memory"
  /\ cache_get E "memory"
               (url_of demo_method +:+ "?"
                +:+ urlencode (m_params demo_method))
     = OList []
  /\ count_sends (trace_of run) = 1%nat
  /\ count_auth (trace_of run) = 1%nat
  /\ result_of run = Returned (OModel None "fresh")
  /\ cached_result (api_of run) = false.
Proof. by vm_compute. Qed.

(** C5 (amended): a GET call with [use_cache] set and a cache configured,
    for which the lookup under [url + '?' + urlencode(params)] gives a
    truthy result (the test of line 87), returns that result with the
    back-reference [_api] of the result, or of each element when it is a
    list, set to the API object on every [Model] among them, and with
    [api.cached_result] set to [True]; no other field of the API object
    changes. The cache lookup is the only thing done: no request, no
    authentication, no sleep, and [self] with its rate-limit fields is as
    before. *)
Theorem cache_hit_returns_cached (E : env) (api : API) (method : string)
        (post_data : option string) (return_cursors use_cache : bool)
        (fuel : nat) (m : APIMethod) (c : string) (v : pyobj) :
  use_cache = true ->
  cache api = Some c ->
  method = "GET" ->
  cache_get E c (url_of m +:+ "?" +:+ urlencode (m_params m)) = v ->
  truthy v = true ->
  let run := execute E api method post_data return_cursors use_cache fuel m in
  result_of run = Returned (restore_api (api_id api) v)
  /\ trace_of run = [CacheGet (url_of m +:+ "?" +:+ urlencode (m_params m))]
  /\ api_of run = set_cached_result true api
  /\ cached_result (api_of run) = true
  /\ last_response (api_of run) = last_response api
  /\ same_settings api (api_of run)
  /\ self_of run = m
  /\ (forall a p, v = OModel a p ->
                  result_of run = Returned (OModel (Some (api_id api)) p))
  /\ (forall l, v = OList l ->
        exists l', result_of run = Returned (OList l')
                   /\ length l' = length l
                   /\ forall i o, l !! i = Some o ->
                        l' !! i = Some (match o with
                                        | OModel _ p =>
                                            OModel (Some (api_id api)) p
                                        | _ => o
                                        end)).
Proof.
  intros -> Hc -> Hget Htruthy run. subst run.
  unfold execute, cache_in_use. rewrite Hc.
  change (String.eqb "GET" "GET") with true. cbv iota.
  fold (cache_key m) in Hget. rewrite Hget, Htruthy.
  cbn [result_of trace_of api_of self_of].
  repeat split; try done.
  - intros a p ->. reflexivity.
  - intros l ->. exists (map (set_api_ref (api_id api)) l).
    destruct (restore_api_elements (api_id api) l) as [Hlen Hel].
    repeat split; try done.
Qed.

Lemma cache_hit_returns_cached_witness :
  let run := execute (world (fun _ => inr response_500) cached_timeline
                            (fun _ => false))
                     demo_api "GET" None false true 0 demo_method in
  result_of run
  = Returned (OList [OModel (Some 1%nat) "first"; OStr "raw";
                     OModel (Some 1%nat) "second"])
  /\ trace_of run = [CacheGet "/1.1/statuses/show.json?id=42"]
  /\ cached_result (api_of run) = true.
Proof.
  destruct (cache_hit_returns_cached
              (world (fun _ => inr response_500) cached_timeline
                     (fun _ => false))
              demo_api "GET" None false true 0%nat demo_method "memory"
              cached_timeline eq_refl eq_refl eq_refl eq_refl eq_refl)
    as (H1 & H2 & _ & H3 & _).
  split; [exact H1|split; [exact H2|exact H3]].
Defined.

(** C8: a GET call with [use_cache] set and a cache configured whose
    lookup found nothing, whose loop ended on a 2xx response and whose
    body was parsed, returns the parsed result; the cache is written once,
    under the key of the lookup, when the result is truthy, and not at all
    when it is falsy. *)
Theorem cache_population (E : env) (api : API) (method : string)
        (post_data : option string) (return_cursors use_cache : bool)
        (fuel : nat) (m : APIMethod) (c : string) (st' : loop_state)
        (evs : list event) (r : response) (result : pyobj) :
  use_cache = true ->
  cache api = Some c ->
  method = "GET" ->
  truthy (cache_get E c (url_of m +:+ "?" +:+ urlencode (m_params m)))
  = false ->
  retry_loop E api method post_data fuel (initial m) = (LoopExit st', evs) ->
  resp_var st' = Some r ->
  200 <= status_code r < 300 ->
  parse E (m_parser m) (self st') (text r)
        (return_cursors || dict_mem "cursor" (m_params m)
         || dict_mem "next" (m_params m)) = inr result ->
  let run := execute E api method post_data return_cursors use_cache fuel m in
  let key := url_of m +:+ "?" +:+ urlencode (m_params m) in
  result_of run = Returned result
  /\ trace_of run
     = CacheGet key :: evs ++ (if truthy result then [CacheStore key result]
                               else [])
  /\ (forall k o, ~ In (CacheStore k o) evs)
  /\ (truthy result = false -> forall k o, ~ In (CacheStore k o) (trace_of run))
  /\ (truthy result = true ->
      forall k o, In (CacheStore k o) (trace_of run) -> k = key /\ o = result).
Proof.
  intros -> Hc -> Hmiss Hloop Hresp Hst Hparse run key. subst run key.
  pose proof (retry_loop_spec E api "GET" post_data fuel _ _ _ Hloop)
    as (_ & _ & Hfr & Hquiet & _).
  cbn [state_of_loop initial self] in Hfr.
  destruct (rate_limit_only_key _ _ Hfr) as (Hkey & Hpar & Hprm).
  assert (Hno : forall k o, ~ In (CacheStore k o) evs).
  { intros k o Hin. rewrite forallb_forall in Hquiet.
    by specialize (Hquiet _ Hin). }
  unfold execute, cache_in_use. rewrite Hc.
  change (String.eqb "GET" "GET") with true. cbv iota.
  fold (cache_key m) in Hmiss |- *. rewrite Hmiss.
  unfold network_phase. fold (initial m). rewrite Hloop.
  unfold after_loop. rewrite Hresp.
  assert (H2xx : is_2xx (status_code r) = true).
  { unfold is_2xx. apply andb_true_iff. split; [apply Z.leb_le|apply Z.ltb_lt];
      lia. }
  rewrite H2xx, andb_false_r, Hpar, Hprm, Hparse.
  cbn [result_of trace_of]. unfold cache_in_use. rewrite Hc, Hkey.
  change (String.eqb "GET" "GET") with true. cbv iota.
  split; [reflexivity|]. split; [by rewrite <- app_comm_cons|].
  split; [exact Hno|]. split.
  - intros Hf k o. rewrite Hf, app_nil_r. cbn [app].
    intros [H|H]; [discriminate|]. by apply (Hno k o).
  - intros Ht k o. rewrite Ht. cbn [app].
    intros [H|H]; [discriminate|]. apply in_app_or in H as [H|H].
    + by destruct (Hno k o).
    + destruct H as [[= <- <-]|[]]. done.
Qed.

Lemma cache_population_witness :
  let run := execute (world (fun _ => inr (response_200 "tweet")) ONone
                            (fun _ => false))
                     demo_api "GET" None false true 1 demo_method in
  result_of run = Returned (OModel None "tweet")
  /\ exists evs,
      trace_of run
      = CacheGet "/1.1/statuses/show.json?id=42"
        :: evs ++ [CacheStore "/1.1/statuses/show.json?id=42"
                              (OModel None "tweet")].
Proof.
  edestruct (cache_population
               (world (fun _ => inr (response_200 "tweet")) ONone
                      (fun _ => false))
               demo_api "GET" None false true 1 demo_method "memory"
               _ _ (response_200 "tweet") (OModel None "tweet")
               eq_refl eq_refl eq_refl eq_refl eq_refl eq_refl)
    as (H1 & H2 & _).
  - simpl. lia.
  - reflexivity.
  - split; [exact H1|]. eexists. exact H2.
Defined.

(** ** Error surfacing and the API object *)

(** C7: when the cache phase did not return and the loop ended with a
    response whose status is not 2xx (and, as for every HTTP response, not
    0), [execute] raises an exception made from the message that the
    parser's [parse_error] gives for the body, or from the message
    ['Twitter error response: status code = ...'] when [parse_error]
    fails: [RateLimitError] with the message and the response when the
    message is that of a rate-limit error, and otherwise [TweepError] with
    the message, the response and the code. *)
Theorem error_surfacing (E : env) (api : API) (method : string)
        (post_data : option string) (return_cursors use_cache : bool)
        (fuel : nat) (m : APIMethod) (st' : loop_state) (evs : list event)
        (r : response) (msg : string) (code : option Z) :
  cache_hit E api method use_cache m = false ->
  retry_loop E api method post_data fuel (initial m) = (LoopExit st', evs) ->
  resp_var st' = Some r ->
  status_code r <> 0 ->
  ~ (200 <= status_code r < 300) ->
  parse_error E (m_parser m) (text r) = Some (msg, code)
  \/ (parse_error E (m_parser m) (text r) = None
      /\ msg = "Twitter error response: status code = "
               +:+ string_of_Z (status_code r)
      /\ code = None) ->
  let run := execute E api method post_data return_cursors use_cache fuel m in
  (is_rate_limit_error_message E msg = true ->
   result_of run = Raised (RateLimitError msg (Some r)))
  /\ (is_rate_limit_error_message E msg = false ->
      result_of run = Raised (TweepError msg (Some r) code))
  /\ last_response (api_of run) = Some r.
Proof.
  intros Hmiss Hloop Hresp Hnz Hst Hmsg run. subst run.
  destruct (execute_miss E api method post_data return_cursors use_cache
                         fuel m Hmiss) as (tr0 & -> & _).
  pose proof (retry_loop_spec E api method post_data fuel _ _ _ Hloop)
    as (_ & _ & Hfr & _).
  cbn [state_of_loop initial self] in Hfr.
  unfold network_phase. fold (initial m). rewrite Hloop.
  unfold after_loop. rewrite Hresp.
  assert (Hcond : negb (status_code r =? 0) && negb (is_2xx (status_code r))
                  = true).
  { apply andb_true_iff. split; apply negb_true_iff.
    - by apply Z.eqb_neq.
    - unfold is_2xx. apply andb_false_iff.
      destruct (Z.leb_spec 200 (status_code r)); [right|by left].
      apply Z.ltb_ge. lia. }
  rewrite Hcond. cbn [result_of api_of].
  rewrite (error_of_frame E m (self st') r Hfr). unfold error_of.
  destruct Hmsg as [-> | (-> & -> & ->)];
    (split; [by intros ->|split; [by intros ->|reflexivity]]).
Qed.

Lemma error_surfacing_witness :
  let run := execute (world (fun _ => inr response_429_spent) ONone
                            mentions_rate_limit)
                     (set_cached_result false
                        {| api_id := 1; auth := None; cache := None;
                           parser := "model"; host := "api.twitter.com";
                           api_root := "/1.1";
                           upload_host := "upload.twitter.com";
                           upload_root := "/1.1"; retry_count := 0;
                           retry_delay := 0; retry_errors := [];
                           timeout := 60; wait_on_rate_limit := false;
                           wait_on_rate_limit_notify := false; proxy := None;
                           cached_result := false; last_response := None |})
                     "POST" None false true 1 demo_method in
  result_of run
  = Raised (RateLimitError "Rate limit exceeded" (Some response_429_spent)).
Proof.
  eapply (error_surfacing
            (world (fun _ => inr response_429_spent) ONone mentions_rate_limit)
            _ "POST" None false true 1 demo_method _ _ response_429_spent
            "Rate limit exceeded" (Some 131)).
  - reflexivity.
  - reflexivity.
  - reflexivity.
  - discriminate.
  - simpl. lia.
  - left. reflexivity.
  - reflexivity.
Defined.

(** C10, as stated, fails: when the transport raises on a retry, a
    response has been received but [execute] leaves through the [except]
    clause of line 129 and [api.last_response] is never assigned. *)
Lemma last_response_not_always_assigned :
  let run := execute (world flaky ONone (fun _ => false)) demo_api "GET" None
                     false true 5 demo_method in
  count_sends (trace_of run) = 2%nat
  /\ session_request (world flaky ONone (fun _ => false)) 0
                     (request_of (world flaky ONone (fun _ => false))
                                 demo_api "GET" None (initial demo_method))
     = inr response_500
  /\ result_of run
     = Raised (TweepError "Failed to send request: Connection reset by peer"
                          None None)
  /\ last_response (api_of run) = None
  /\ last_response (api_of run) <> Some response_500.
Proof. repeat split. discriminate. Qed.

(** C10 (amended): [execute] assigns no field of the API object other
    than [cached_result] and [last_response]. [cached_result] is cleared
    at entry and is set on return exactly when the cache phase returned.
    [last_response] is assigned once, after the loop, when the loop ends
    normally having received a response, which is then the answer to the
    last request issued; on a cache hit, when an exception leaves the loop
    (transport failure, ill-formed header, refused sleep length), when the
    loop body never ran, and as long as the loop runs, it is left as it
    was. *)
Theorem execute_frame (E : env) (api : API) (method : string)
        (post_data : option string) (return_cursors use_cache : bool)
        (fuel : nat) (m : APIMethod) :
  let run := execute E api method post_data return_cursors use_cache fuel m in
  same_settings api (api_of run)
  /\ cached_result (api_of run) = cache_hit E api method use_cache m
  /\ (cache_hit E api method use_cache m = true ->
      last_response (api_of run) = last_response api)
  /\ (cache_hit E api method use_cache m = false ->
      match retry_loop E api method post_data fuel (initial m) with
      | (LoopExit st', evs) =>
          match resp_var st' with
          | Some r =>
              last_response (api_of run) = Some r
              /\ (0 < count_sends evs)%nat
              /\ exists rq,
                  session_request E (pred (count_sends evs)) rq = inr r
          | None =>
              last_response (api_of run) = last_response api
              /\ count_sends evs = 0%nat
          end
      | (LoopRaise e _, _) =>
          last_response (api_of run) = last_response api
          /\ result_of run = Raised e
      | (LoopOutOfFuel _, _) =>
          last_response (api_of run) = last_response api
          /\ result_of run = OutOfFuel
      end).
Proof.
  intros run. subst run.
  destruct (cache_hit E api method use_cache m) eqn:Hhit.
  - unfold cache_hit in Hhit. unfold execute.
    destruct (cache_in_use api method use_cache) as [c|]; [|discriminate].
    rewrite Hhit. cbn. unfold same_settings. by repeat split.
  - destruct (execute_miss E api method post_data return_cursors use_cache
                           fuel m Hhit) as (tr0 & -> & _).
    unfold network_phase. fold (initial m).
    destruct (retry_loop E api method post_data fuel (initial m))
      as [res evs] eqn:Hloop.
    pose proof (retry_loop_spec E api method post_data fuel _ _ _ Hloop)
      as (_ & Hc & _ & _ & Hlast).
    cbn [state_of_loop initial sends resp_var] in Hc, Hlast.
    rewrite Nat.sub_0_r in Hc.
    destruct res as [st'|e st'|st']; cbn [state_of_loop] in *.
    + unfold after_loop.
      destruct (resp_var st') as [r|] eqn:Hresp.
      * assert (Hrecv : (0 < count_sends evs)%nat
                        /\ exists rq,
                            session_request E (pred (count_sends evs)) rq
                            = inr r).
        { destruct Hlast as [[_ ?]|[Hlt (rq & r' & Hr' & Heq)]];
            [discriminate|]. injection Heq as <-. rewrite Hc.
          split; [lia|by exists rq]. }
        destruct (negb (status_code r =? 0) && negb (is_2xx (status_code r))).
        -- cbn. unfold same_settings. repeat split; try done; apply Hrecv.
        -- destruct (parse E _ _ _ _); cbn; unfold same_settings;
             repeat split; try done; apply Hrecv.
      * cbn. unfold same_settings. repeat split; try done.
        destruct Hlast as [[Hs _]|[_ (rq & r' & _ & ?)]]; [|discriminate].
        by rewrite Hc, Hs.
    + cbn. unfold same_settings. by repeat split.
    + cbn. unfold same_settings. by repeat split.
Qed.

(** * Further properties *)

(** ** The parameter dict *)

Lemma dict_get_set (k k' v : string) (p : params) :
  dict_get k (dict_set k' v p)
  = if String.eqb k k' then Some v else dict_get k p.
Proof.
  induction p as [|[k0 v0] p IH]; simpl.
  - reflexivity.
  - destruct (String.eqb_spec k' k0) as [->|Hne]; simpl.
    + by destruct (String.eqb k k0).
    + rewrite IH. destruct (String.eqb_spec k k0) as [->|]; [|done].
      destruct (String.eqb_spec k0 k') as [->|]; done.
Qed.

Lemma dict_mem_get (k : string) (p : params) :
  dict_mem k p = match dict_get k p with Some _ => true | None => false end.
Proof.
  induction p as [|[k0 v0] p IH]; simpl; [done|].
  by destruct (String.eqb k k0).
Qed.

Lemma dict_mem_keys (k : string) (p : params) :
  dict_mem k p = true <-> In k (map fst p).
Proof.
  induction p as [|[k0 v0] p IH]; simpl.
  - split; [discriminate|tauto].
  - rewrite orb_true_iff, IH, String.eqb_eq. split; intros [H|H]; auto.
Qed.

Lemma dict_set_fresh (k v : string) (p : params) :
  dict_mem k p = false -> dict_set k v p = p ++ [(k, v)].
Proof.
  induction p as [|[k0 v0] p IH]; simpl; [done|].
  intros [H1 H2]%orb_false_iff. rewrite H1. by rewrite IH.
Qed.

Lemma dict_set_keys (k v : string) (p : params) :
  map fst (dict_set k v p)
  = if dict_mem k p then map fst p else map fst p ++ [k].
Proof.
  induction p as [|[k0 v0] p IH]; simpl; [done|].
  destruct (String.eqb_spec k k0) as [->|Hne]; simpl; [done|].
  rewrite IH. by destruct (dict_mem k p).
Qed.

Lemma dict_set_NoDup (k v : string) (p : params) :
  NoDup (map fst p) -> NoDup (map fst (dict_set k v p)).
Proof.
  intros Hnd. rewrite dict_set_keys.
  destruct (dict_mem k p) eqn:Hmem; [done|].
  apply NoDup_app. split; [done|]. split; [|apply NoDup_singleton].
  intros x Hx ->%list_elem_of_singleton.
  apply list_elem_of_In, dict_mem_keys in Hx. congruence.
Qed.

Lemma bind_positional_NoDup schema args :
  forall idx p p',
    NoDup (map fst p) ->
    bind_positional schema idx args p = inr p' -> NoDup (map fst p').
Proof.
  induction args as [|[a|] args IH]; intros idx p p' Hnd; simpl.
  - by intros [= <-].
  - destruct (schema !! idx); [|discriminate].
    apply IH. by apply dict_set_NoDup.
  - by apply IH.
Qed.

Lemma bind_keywords_NoDup kwargs :
  forall p p',
    NoDup (map fst p) ->
    bind_keywords kwargs p = inr p' -> NoDup (map fst p').
Proof.
  induction kwargs as [|[k [a|]] kwargs IH]; intros p p' Hnd; simpl.
  - by intros [= <-].
  - destruct (dict_mem k p); [discriminate|].
    apply IH. by apply dict_set_NoDup.
  - by apply IH.
Qed.

(** X1: the dict [build_parameters] leaves in [session.params] has no key
    twice. *)
Theorem build_parameters_unique_keys (schema : list string)
        (args : list (option pyval)) (kwargs : list (string * option pyval))
        (p : params) :
  build_parameters schema args kwargs = inr p -> NoDup (map fst p).
Proof.
  unfold build_parameters.
  destruct (bind_positional schema 0 args []) as [e|p0] eqn:Hpos;
    [discriminate|].
  intros Hkw. apply (bind_keywords_NoDup kwargs p0 p); [|exact Hkw].
  apply (bind_positional_NoDup schema args 0 [] p0); [constructor|exact Hpos].
Qed.

Lemma build_parameters_unique_keys_witness :
  NoDup (map fst [("id", "42"); ("count", "5")]).
Proof.
  apply (build_parameters_unique_keys
           ["id"; "id"; "count"] [Some (PInt 7); Some (PInt 42)]
           [("count", Some (PInt 5))] [("id", "42"); ("count", "5")]).
  reflexivity.
Defined.

Lemma bind_positional_failure schema args :
  forall idx p e,
    bind_positional schema idx args p = inl e ->
    e = too_many
    /\ exists i a, args !! i = Some (Some a) /\ (length schema <= idx + i)%nat.
Proof.
  induction args as [|[a|] args IH]; intros idx p e; simpl.
  - discriminate.
  - destruct (schema !! idx) as [name|] eqn:Hname.
    + intros H. destruct (IH _ _ _ H) as (-> & i & a' & Hi & Hlen).
      split; [done|]. exists (S i), a'. split; [done|lia].
    + intros [= <-]. split; [done|]. exists 0%nat, a. split; [done|].
      apply lookup_ge_None_1 in Hname. lia.
  - intros H. destruct (IH _ _ _ H) as (-> & i & a' & Hi & Hlen).
    split; [done|]. exists (S i), a'. split; [done|lia].
Qed.

Lemma bind_keywords_failure kwargs :
  forall p e,
    bind_keywords kwargs p = inl e ->
    exists k v, e = multiple_values k /\ In (k, Some v) kwargs.
Proof.
  induction kwargs as [|[k [a|]] kwargs IH]; intros p e; simpl.
  - discriminate.
  - destruct (dict_mem k p).
    + intros [= <-]. exists k, a. split; [done|by left].
    + intros H. destruct (IH _ _ H) as (k' & v & -> & Hin).
      exists k', v. split; [done|by right].
  - intros H. destruct (IH _ _ H) as (k' & v & -> & Hin).
    exists k', v. split; [done|by right].
Qed.

Lemma build_parameters_failures_aux (schema : list string)
      (args : list (option pyval)) (kwargs : list (string * option pyval)) :
  (build_parameters schema args kwargs = inl too_many
   -> exists i a, args !! i = Some (Some a) /\ (length schema <= i)%nat)
  /\ forall e,
      build_parameters schema args kwargs = inl e ->
      e = too_many
      \/ exists k, e = multiple_values k /\ given_by_keyword kwargs k.
Proof.
  unfold build_parameters. split.
  - destruct (bind_positional schema 0 args []) as [e|p0] eqn:Hpos.
    + intros _. by destruct (bind_positional_failure _ _ _ _ _ Hpos) as [_ ?].
    + intros H. destruct (bind_keywords_failure _ _ _ H) as (k & v & He & _).
      discriminate He.
  - intros e. destruct (bind_positional schema 0 args []) as [e0|p0] eqn:Hpos.
    + intros [= <-]. left.
      by destruct (bind_positional_failure _ _ _ _ _ Hpos) as [? _].
    + intros H. destruct (bind_keywords_failure _ _ _ H) as (k & v & He & Hin).
      right. exists k. split; [done|by exists v].
Qed.

(** X2: [build_parameters] raises ['Too many parameters supplied!']
    exactly when some positional argument other than [None] lies beyond
    the schema; it raises nothing but this error and ['Multiple values for
    parameter k supplied!'] for a name [k] given by keyword. *)
Theorem build_parameters_failures (schema : list string)
        (args : list (option pyval)) (kwargs : list (string * option pyval)) :
  (build_parameters schema args kwargs = inl too_many
   <-> exists i a, args !! i = Some (Some a) /\ (length schema <= i)%nat)
  /\ forall e,
      build_parameters schema args kwargs = inl e ->
      e = too_many
      \/ exists k, e = multiple_values k /\ given_by_keyword kwargs k.
Proof.
  destruct (build_parameters_failures_aux schema args kwargs) as [H1 H2].
  split; [split; [exact H1|]|exact H2].
  intros (i & a & Hi & Hlen). unfold build_parameters.
  by rewrite (bind_positional_overflow schema args 0 [] i a Hi).
Qed.

Lemma drop_S_tail {A} (l : list A) (n : nat) :
  drop (S n) l = tail (drop n l).
Proof.
  revert n. induction l as [|x l IH]; intros [|n]; simpl; done.
Qed.

Lemma dict_mem_app (k : string) (p q : params) :
  dict_mem k (p ++ q) = dict_mem k p || dict_mem k q.
Proof. unfold dict_mem. apply existsb_app. Qed.

Lemma bind_keywords_success kwargs :
  forall p p', bind_keywords kwargs p = inr p' -> p' = p ++ supplied kwargs.
Proof.
  induction kwargs as [|[k [a|]] kwargs IH]; intros p p'; simpl.
  - intros [= <-]. by rewrite app_nil_r.
  - destruct (dict_mem k p) eqn:Hmem; [discriminate|].
    intros H. rewrite (IH _ _ H), (dict_set_fresh _ _ _ Hmem).
    by rewrite <- app_assoc.
  - apply IH.
Qed.

Lemma bind_keywords_accepts kwargs :
  forall p,
    NoDup (map fst kwargs) ->
    (forall k v, In (k, Some v) kwargs -> dict_mem k p = false) ->
    bind_keywords kwargs p = inr (p ++ supplied kwargs).
Proof.
  induction kwargs as [|[k [a|]] kwargs IH]; intros p Hnd Hfree; simpl.
  - by rewrite app_nil_r.
  - apply NoDup_cons in Hnd as [Hk Hnd].
    rewrite (Hfree k a) by by left.
    rewrite (dict_set_fresh k (py_str a) p) by (apply (Hfree k a); by left).
    rewrite IH; [by rewrite <- app_assoc|done|].
    intros k' v' Hin. rewrite dict_mem_app, (Hfree k' v') by by right.
    simpl. rewrite orb_false_r. apply String.eqb_neq. intros ->.
    apply Hk, list_elem_of_In, in_map_iff. by exists (k, Some v').
  - apply NoDup_cons in Hnd as [_ Hnd]. apply IH; [done|].
    intros k' v' Hin. apply (Hfree k' v'). by right.
Qed.

Lemma bind_positional_named schema args :
  forall idx p,
    NoDup (drop idx schema) ->
    (forall k, In k (drop idx schema) -> dict_mem k p = false) ->
    (forall i a, args !! i = Some (Some a) -> (idx + i < length schema)%nat) ->
    bind_positional schema idx args p
    = inr (p ++ named (drop idx schema) args).
Proof.
  induction args as [|[a|] args IH]; intros idx p Hnd Hfree Hfit; simpl.
  - destruct (drop idx schema); by rewrite app_nil_r.
  - assert (Hlt : (idx < length schema)%nat).
    { specialize (Hfit 0%nat a eq_refl). lia. }
    destruct (lookup_lt_is_Some_2 schema idx Hlt) as [name Hname].
    rewrite Hname. pose proof (drop_S _ _ _ Hname) as Hdrop.
    rewrite Hdrop in *. apply NoDup_cons in Hnd as [Hfresh Hnd].
    rewrite (dict_set_fresh name (py_str a) p) by (apply Hfree; by left).
    rewrite IH; [by rewrite <- app_assoc|done| |].
    + intros k Hk. rewrite dict_mem_app, (Hfree k) by by right.
      simpl. rewrite orb_false_r. apply String.eqb_neq. intros ->.
      by apply Hfresh, list_elem_of_In.
    + intros i a' Hi. specialize (Hfit (S i) a' Hi). lia.
  - rewrite IH.
    + rewrite drop_S_tail. by destruct (drop idx schema).
    + rewrite drop_S_tail. destruct (drop idx schema); [done|].
      by apply NoDup_cons in Hnd as [_ ?].
    + intros k Hk. apply Hfree. rewrite drop_S_tail in Hk.
      destruct (drop idx schema); [done|by right].
    + intros i a' Hi. specialize (Hfit (S i) a' Hi). lia.
Qed.

(** X3: for keyword arguments with distinct names, [build_parameters]
    accepts a call exactly when every positional argument other than
    [None] has a name in the schema and no name is both bound positionally
    and given by keyword, [None] not counting on either side. *)
Theorem build_parameters_accepts (schema : list string)
        (args : list (option pyval)) (kwargs : list (string * option pyval)) :
  NoDup (map fst kwargs) ->
  (exists p, build_parameters schema args kwargs = inr p)
  <-> fits schema args
      /\ forall k, bound_positionally schema args k ->
                   ~ given_by_keyword kwargs k.
Proof.
  intros Hnd. unfold build_parameters. split.
  - intros [p Hp].
    destruct (bind_positional schema 0 args []) as [e|p0] eqn:Hpos;
      [discriminate|].
    assert (Hfit : fits schema args).
    { intros i a Hi. destruct (Nat.lt_ge_cases i (length schema)); [done|].
      rewrite (bind_positional_overflow schema args 0 [] i a Hi) in Hpos;
        [discriminate|lia]. }
    split; [exact Hfit|]. intros k Hb [v Hin].
    destruct (bind_positional_fits schema args 0 [] Hfit) as (p1 & Hp1 & Hmem).
    rewrite Hpos in Hp1. injection Hp1 as <-.
    destruct (bind_keywords_collision kwargs p0 k v Hnd Hin)
      as (k' & _ & _ & _ & _ & _ & _ & Hres).
    { apply Hmem. by right. }
    rewrite Hres in Hp. discriminate.
  - intros [Hfit Hfree].
    destruct (bind_positional_fits schema args 0 [] Hfit) as (p0 & -> & Hmem).
    exists (p0 ++ supplied kwargs). apply bind_keywords_accepts; [done|].
    intros k v Hin. destruct (dict_mem k p0) eqn:Hk; [|done].
    apply Hmem in Hk as [Hk|Hk]; [discriminate|].
    destruct (Hfree k Hk). by exists v.
Qed.

Lemma build_parameters_accepts_witness :
  (exists p, build_parameters ["id"; "count"] [Some (PInt 42); None]
                              [("count", Some (PInt 5)); ("id", None)]
             = inr p)
  <-> fits ["id"; "count"] [Some (PInt 42); None]
      /\ forall k,
          bound_positionally ["id"; "count"] [Some (PInt 42); None] k ->
          ~ given_by_keyword [("count", Some (PInt 5)); ("id", None)] k.
Proof.
  apply (build_parameters_accepts ["id"; "count"] [Some (PInt 42); None]
                                  [("count", Some (PInt 5)); ("id", None)]).
  apply (bool_decide_unpack _). by vm_compute.
Defined.

(** X4: when the schema and the keyword arguments have distinct names and
    the call is accepted, [session.params] holds the positional arguments
    under their schema names, in the order of the schema, followed by the
    keyword arguments in the order they were given; every value is
    [str(arg)] and arguments that are [None] are left out. *)
Theorem build_parameters_value (schema : list string)
        (args : list (option pyval)) (kwargs : list (string * option pyval)) :
  NoDup schema ->
  NoDup (map fst kwargs) ->
  fits schema args ->
  (forall k, bound_positionally schema args k -> ~ given_by_keyword kwargs k) ->
  build_parameters schema args kwargs
  = inr (named schema args ++ supplied kwargs).
Proof.
  intros Hs Hk Hfit Hfree. unfold build_parameters.
  rewrite (bind_positional_named schema args 0 []); try done.
  - rewrite drop_0. cbn [app].
    destruct (bind_positional_fits schema args 0 [] Hfit) as (p0 & Hp0 & Hmem).
    rewrite (bind_positional_named schema args 0 []) in Hp0; try done.
    rewrite drop_0 in Hp0. cbn [app] in Hp0. injection Hp0 as <-.
    apply (bind_keywords_accepts kwargs (named schema args) Hk).
    intros k v Hin. destruct (dict_mem k (named schema args)) eqn:Hmk; [|done].
    apply Hmem in Hmk as [Hmk|Hmk]; [discriminate|].
    destruct (Hfree k Hmk). by exists v.
Qed.

Lemma build_parameters_value_witness :
  build_parameters ["id"; "count"; "page"]
                   [Some (PInt 42); None; Some (PInt 3)]
                   [("trim_user", Some (PBool true)); ("count", None);
                    ("lang", Some (PStr "fr"))]
  = inr [("id", "42"); ("page", "3"); ("trim_user", "True"); ("lang", "fr")].
Proof.
  apply (build_parameters_value
           ["id"; "count"; "page"] [Some (PInt 42); None; Some (PInt 3)]
           [("trim_user", Some (PBool true)); ("count", None);
            ("lang", Some (PStr "fr"))]).
  - apply (bool_decide_unpack _). by vm_compute.
  - apply (bool_decide_unpack _). by vm_compute.
  - intros [|[|[|i]]] a; simpl; first [discriminate | lia].
  - intros k (i & a & Hi & Hs) (v & Hin).
    destruct i as [|[|[|i]]]; simpl in Hi, Hs; try discriminate;
      injection Hs as <-; simpl in Hin;
      repeat (destruct Hin as [Hin|Hin]; [discriminate|]); done.
Defined.

(** ** The constructor *)

Lemma kwargs_get_In (k : string) (kwargs : list (string * option pyval))
      (v : pyval) :
  kwargs_get k kwargs = Some v -> In (k, Some v) kwargs.
Proof.
  induction kwargs as [|[k' o] kwargs IH]; simpl; [discriminate|].
  destruct (String.eqb_spec k k') as [->|_].
  - intros ->. by left.
  - intros H. right. by apply IH.
Qed.

Lemma dict_get_In (k v : string) (p : params) :
  NoDup (map fst p) -> In (k, v) p -> dict_get k p = Some v.
Proof.
  induction p as [|[k0 v0] p IH]; simpl; [done|].
  intros [Hfresh Hnd]%NoDup_cons [[= -> ->]|Hin].
  - by rewrite String.eqb_refl.
  - destruct (String.eqb_spec k k0) as [->|_]; [|by apply IH].
    destruct Hfresh. apply list_elem_of_In, in_map_iff. by exists (k0, v).
Qed.

Lemma supplied_In (k : string) (v : pyval)
      (kwargs : list (string * option pyval)) :
  In (k, Some v) kwargs -> In (k, py_str v) (supplied kwargs).
Proof.
  induction kwargs as [|[k' [a|]] kwargs IH]; simpl; [done| |].
  - intros [[= -> ->]|H]; [by left|right; by apply IH].
  - intros [[=]|H]. by apply IH.
Qed.

(** X5: the constructor raises ['Authentication required!'] exactly when
    the method requires authentication and the API object has no auth
    handler; the check precedes the binding of the parameters, and
    [bind_api] then ends without a method, a request or a cache access. *)
Theorem authentication_required (api : API) (b : binding)
        (args : list (option pyval)) (kwargs : list (string * option pyval)) :
  (init api b args kwargs
   = inl (TweepError "Authentication required!" None None)
   <-> b_require_auth b = true /\ auth api = None)
  /\ (b_require_auth b = true -> auth api = None ->
      forall E http_method post_data return_cursors use_cache fuel,
        bind_api E api b args kwargs http_method post_data return_cursors
                 use_cache fuel
        = InitFailed (TweepError "Authentication required!" None None)).
Proof.
  split; [split|].
  - unfold init. destruct (b_require_auth b), (auth api); simpl; try done;
      (destruct (build_parameters _ _ _) as [e|p] eqn:Hb; [|discriminate];
       destruct (proj2 (build_parameters_failures_aux _ _ _) e Hb)
         as [->|(k & -> & _)]; discriminate).
  - intros [Hr Ha]. unfold init. by rewrite Hr, Ha.
  - intros Hr Ha E http_method post_data return_cursors use_cache fuel.
    unfold bind_api, init. by rewrite Hr, Ha.
Qed.


(** ** The shape of a call *)

Lemma count_auth_app (t1 t2 : list event) :
  count_auth (t1 ++ t2) = (count_auth t1 + count_auth t2)%nat.
Proof. unfold count_auth. by rewrite List.filter_app, length_app. Qed.

Lemma count_close_app (t1 t2 : list event) :
  count_close (t1 ++ t2) = (count_close t1 + count_close t2)%nat.
Proof. unfold count_close. by rewrite List.filter_app, length_app. Qed.

Lemma requests_app (t1 t2 : list event) :
  requests (t1 ++ t2) = requests t1 ++ requests t2.
Proof.
  induction t1 as [|[] t1 IH]; simpl; try done. by rewrite IH.
Qed.

Lemma after_loop_shape E api method return_cursors use_cache a st tr :
  let run := after_loop E api method return_cursors use_cache a st tr in
  self_of run = self st
  /\ result_of run <> OutOfFuel
  /\ exists store,
      trace_of run = tr ++ store
      /\ (store = []
          \/ exists v,
              store = [CacheStore (cache_key (self st)) v]
              /\ result_of run = Returned v /\ truthy v = true
              /\ cache_in_use api method use_cache <> None).
Proof.
  unfold after_loop.
  destruct (resp_var st) as [r|]; cbn.
  2:{ repeat split; [done|]. exists []. rewrite app_nil_r. auto. }
  destruct (_ && _); cbn.
  { repeat split; [done|]. exists []. rewrite app_nil_r. auto. }
  destruct (parse E _ _ _ _) as [e|v]; cbn.
  { repeat split; [done|]. exists []. rewrite app_nil_r. auto. }
  repeat split; [done|].
  destruct (cache_in_use api method use_cache) as [c|] eqn:Hc.
  - destruct (truthy v) eqn:Hv.
    + eexists. split; [reflexivity|]. right. by exists v.
    + exists []. auto.
  - exists []. auto.
Qed.

(** A call is a lookup, the events of the loop and a store; the lookup is
    there when the cache is in use, the loop when the lookup found
    nothing, the store when the loop ended and a truthy result was
    parsed. *)
Lemma execute_shape E api method post_data return_cursors use_cache fuel m :
  let run := execute E api method post_data return_cursors use_cache fuel m in
  exists net store,
    trace_of run = lookup_events api method use_cache m ++ net ++ store
    /\ (net = [] /\ cache_hit E api method use_cache m = true /\ store = []
        \/ cache_hit E api method use_cache m = false
           /\ net = snd (retry_loop E api method post_data fuel (initial m)))
    /\ (store = []
        \/ exists v,
            store = [CacheStore (cache_key m) v]
            /\ result_of run = Returned v /\ truthy v = true
            /\ cache_in_use api method use_cache <> None).
Proof.
  intros run. subst run.
  destruct (cache_hit E api method use_cache m) eqn:Hhit.
  - unfold cache_hit in Hhit. unfold execute, lookup_events.
    destruct (cache_in_use api method use_cache) as [c|]; [|discriminate].
    rewrite Hhit. exists [], []. cbn. split; [done|]. split; left; done.
  - destruct (execute_miss E api method post_data return_cursors use_cache
                           fuel m Hhit) as (tr0 & -> & ->).
    fold (lookup_events api method use_cache m).
    unfold network_phase.
    destruct (retry_loop E api method post_data fuel (initial m))
      as [res evs] eqn:Hloop.
    pose proof (retry_loop_spec E api method post_data fuel _ _ _ Hloop)
      as (_ & _ & Hfr & _).
    cbn [state_of_loop initial self] in Hfr.
    destruct (rate_limit_only_key _ _ Hfr) as (Hkey & _).
    destruct res as [st'|e st'|st']; cbn [state_of_loop] in *.
    + destruct (after_loop_shape E api method return_cursors
                                 use_cache (set_cached_result false api) st'
                                 (lookup_events api method use_cache m ++ evs))
        as (_ & _ & store & -> & Hstore).
      exists evs, store. rewrite <- app_assoc. split; [done|].
      split; [by right|]. by rewrite <- Hkey.
    + exists evs, []. cbn. rewrite app_nil_r.
      split; [done|]. split; [by right|by left].
    + exists evs, []. cbn. rewrite app_nil_r.
      split; [done|]. split; [by right|by left].
Qed.

Section Traces.

Variable E : env.
Variable api : API.
Variable method : string.
Variable post_data : option string.

Local Abbreviation iter := (iteration E api method post_data).
Local Abbreviation loop := (retry_loop E api method post_data).
Local Abbreviation rq_of := (request_of E api method post_data).
Local Abbreviation pre := (prelude E api).

(** The events of one iteration: those of a gate that raises, or the
    prelude, the request and, when a retry is counted, the sleep before
    it. *)
Lemma iteration_events st res evs :
  iter st = (res, evs) ->
  (exists e, res = Throw e st /\ evs = fst (gate E api (self st) (sends st)))
  \/ evs = pre st ++ [Send (rq_of st)]
  \/ exists q, evs = pre st ++ [Send (rq_of st); Sleep q].
Proof.
  destruct (snd (gate E api (self st) (sends st))) as [e|] eqn:Hg.
  { rewrite (iteration_gate E api method post_data st e Hg).
    intros [= <- <-]. left. by exists e. }
  destruct (session_request E (sends st) (rq_of st)) as [e|r] eqn:Hs.
  { rewrite (iteration_transport E api method post_data st e Hg Hs).
    intros [= _ <-]. right. by left. }
  destruct (is_2xx (status_code r)) eqn:H2.
  { rewrite (iteration_2xx E api method post_data st r Hg Hs H2).
    intros [= _ <-]. right. by left. }
  destruct (update_rate_limit r (self st)) as [[e m']|m'] eqn:Hu.
  { rewrite (iteration_bad_header E api method post_data st r e m' Hg Hs H2
                                  Hu).
    intros [= _ <-]. right. by left. }
  rewrite (iteration_classified E api method post_data st r m' Hg Hs H2 Hu).
  destruct (classify api r m') as [|d| |e];
    try (intros [= _ <-]; right; by left).
  destruct (time_sleep d) as [e|evs'] eqn:Hsl;
    [intros [= _ <-]; right; by left|].
  apply time_sleep_events in Hsl as (q & -> & ->).
  intros [= _ <-]. right. right. by exists q.
Qed.

Lemma gate_counts m k :
  count_auth (fst (gate E api m k)) = 0%nat
  /\ requests (fst (gate E api m k)) = []
  /\ count_close (fst (gate E api m k)) = 0%nat
  /\ count_sends (fst (gate E api m k)) = 0%nat.
Proof.
  rewrite gate_cases.
  destruct (wait_on_rate_limit api), (reset_time m), (remaining_calls m);
    try done.
  destruct (_ && _); [|done].
  by destruct (_ <=? max_sleep), (wait_on_rate_limit_notify api).
Qed.

Lemma prelude_counts st :
  count_auth (pre st) = (if auth api is Some _ then 1 else 0)%nat
  /\ requests (pre st) = [] /\ count_close (pre st) = 0%nat.
Proof.
  unfold prelude.
  destruct (gate_counts (self st) (sends st)) as (Ha & Hr & Hc & _).
  rewrite count_auth_app, requests_app, count_close_app, Ha, Hr, Hc.
  unfold authenticate. by destruct (auth api).
Qed.

Lemma iteration_counts_events st res evs :
  iter st = (res, evs) ->
  count_auth evs = (if auth api is Some _ then count_sends evs else 0)%nat
  /\ count_close evs = 0%nat
  /\ (requests evs = [rq_of st]
      \/ requests evs = [] /\ exists e, res = Throw e st).
Proof.
  intros Hit. destruct (prelude_counts st) as (Ha & Hr & Hc).
  pose proof (prelude_quiet E api st) as [Hq _].
  destruct (gate_counts (self st) (sends st)) as (Ga & Gr & Gc & Gs).
  destruct (iteration_events st res evs Hit) as [(e & -> & ->)|[->|[q ->]]].
  - rewrite Ga, Gr, Gc, Gs. repeat split; [by destruct (auth api)|].
    right. split; [done|by exists e].
  - rewrite count_auth_app, count_sends_app, requests_app, count_close_app,
      Ha, Hr, Hc, Hq.
    repeat split; [by destruct (auth api)|by left].
  - rewrite count_auth_app, count_sends_app, requests_app, count_close_app,
      Ha, Hr, Hc, Hq.
    repeat split; [by destruct (auth api)|by left].
Qed.

Lemma retry_loop_counts fuel :
  forall st,
    count_auth (snd (loop fuel st))
    = (if auth api is Some _ then count_sends (snd (loop fuel st)) else 0)%nat
    /\ count_close (snd (loop fuel st)) = 0%nat.
Proof.
  induction fuel as [|fuel IH]; intros st; simpl.
  - destruct (_ <? _); by destruct (auth api).
  - destruct (_ <? _); [|by destruct (auth api)].
    destruct (iter st) as [res evs] eqn:Hit.
    destruct (iteration_counts_events st res evs Hit) as (Ha & Hc & _).
    destruct res as [st'|st'|e st']; cbn [snd]; try done.
    destruct (IH st') as [Ha' Hc']. destruct (loop fuel st') as [res' evs'].
    cbn [snd] in *.
    rewrite count_auth_app, count_sends_app, count_close_app, Ha, Ha', Hc,
      Hc'.
    by destruct (auth api).
Qed.

Lemma retry_loop_requests (m0 : APIMethod) fuel :
  forall st i rq,
    rate_limit_only m0 (self st) ->
    requests (snd (loop fuel st)) !! i = Some rq ->
    rq = make_request api method post_data m0
                      (credentials E api (sends st + i)).
Proof.
  induction fuel as [|fuel IH]; intros st i rq Hm; simpl.
  - by destruct (_ <? _).
  - destruct (_ <? _); [|done].
    destruct (iter st) as [res evs] eqn:Hit.
    destruct (iteration_counts_events st res evs Hit) as (_ & _ & Hr).
    assert (Hfirst : rq_of st
                     = make_request api method post_data m0
                                    (credentials E api (sends st))).
    { unfold request_of, credentials. by destruct Hm as (a & b & ->). }
    assert (Hone : forall i rq,
               requests evs !! i = Some rq ->
               rq = make_request api method post_data m0
                                 (credentials E api (sends st + i))).
    { destruct Hr as [Hr|[Hr _]]; rewrite Hr; [|done].
      intros [|j] rq'; [|done].
      intros [= <-]. by rewrite Nat.add_0_r. }
    destruct res as [st'|st'|e st']; cbn [snd]; try apply Hone.
    destruct Hr as [Hr|[_ [e He]]]; [|discriminate He].
    pose proof (iteration_spec E api method post_data st _ evs Hit)
      as [(e & _ & He & _)|(_ & Hs & Hfr & _)]; [discriminate He|].
    specialize (IH st'). destruct (loop fuel st') as [res' evs'].
    cbn [snd state_of_step] in *. rewrite requests_app, Hr.
    destruct i as [|j]; cbn.
    + intros [= <-]. by rewrite Nat.add_0_r.
    + intros Hj. rewrite (IH j rq (rate_limit_only_trans _ _ _ Hm Hfr) Hj).
      rewrite Hs. f_equal. f_equal. lia.
Qed.

End Traces.

(** ** What every call does *)

(** X6: a call accesses the cache at most twice. The lookup comes first
    and is made exactly when [use_cache] is set, a cache is configured and
    the method is GET; the requests, sleeps and authentications that
    follow never touch the cache; at most one store comes last, of the
    truthy result that is returned, under the key of the lookup. When the
    cache is not in use, the call makes no cache access at all. *)
Theorem cache_traffic (E : env) (api : API) (method : string)
        (post_data : option string) (return_cursors use_cache : bool)
        (fuel : nat) (m : APIMethod) :
  let run := execute E api method post_data return_cursors use_cache fuel m in
  (exists net store,
      trace_of run = lookup_events api method use_cache m ++ net ++ store
      /\ forallb (fun e => negb (is_cache_event e)) net = true
      /\ (store = []
          \/ exists v, store = [CacheStore (cache_key m) v]
                       /\ result_of run = Returned v /\ truthy v = true))
  /\ (cache_in_use api method use_cache = None ->
      forallb (fun e => negb (is_cache_event e)) (trace_of run) = true).
Proof.
  intros run. subst run.
  destruct (execute_shape E api method post_data return_cursors use_cache
                          fuel m) as (net & store & Htr & Hnet & Hstore).
  assert (Hquiet : forallb (fun e => negb (is_cache_event e)) net = true).
  { destruct Hnet as [(-> & _)|[_ ->]]; [done|].
    destruct (retry_loop E api method post_data fuel (initial m))
      as [res evs] eqn:Hloop.
    by pose proof (retry_loop_spec E api method post_data fuel _ _ _ Hloop)
      as (_ & _ & _ & ? & _). }
  split.
  - exists net, store. split; [done|]. split; [done|].
    destruct Hstore as [->|(v & -> & ? & ? & _)]; [by left|right; by exists v].
  - intros Hnone. rewrite Htr. unfold lookup_events. rewrite Hnone.
    cbn [app]. rewrite forallb_app, Hquiet.
    by destruct Hstore as [->|(v & _ & _ & _ & ?)].
Qed.

(** X7: [apply_auth] is called once for every request: in the trace of
    any call there are as many authentications as requests when the API
    object has an auth handler, and none when it has not. *)
Theorem auth_once_per_request (E : env) (api : API) (method : string)
        (post_data : option string) (return_cursors use_cache : bool)
        (fuel : nat) (m : APIMethod) :
  let run := execute E api method post_data return_cursors use_cache fuel m in
  count_auth (trace_of run)
  = (if auth api is Some _ then count_sends (trace_of run) else 0)%nat.
Proof.
  intros run. subst run.
  destruct (execute_shape E api method post_data return_cursors use_cache
                          fuel m) as (net & store & -> & Hnet & Hstore).
  rewrite !count_auth_app, !count_sends_app.
  assert (H0 : count_auth (lookup_events api method use_cache m) = 0%nat
               /\ count_sends (lookup_events api method use_cache m) = 0%nat).
  { unfold lookup_events. by destruct (cache_in_use api method use_cache). }
  assert (H1 : count_auth store = 0%nat /\ count_sends store = 0%nat).
  { by destruct Hstore as [->|(v & -> & _)]. }
  destruct H0 as [-> ->], H1 as [-> ->].
  destruct Hnet as [(-> & _)|[_ ->]]; [by destruct (auth api)|].
  destruct (retry_loop_counts E api method post_data fuel (initial m))
    as [-> _].
  destruct (auth api); lia.
Qed.

(** The requests of a call, one by one. *)
Lemma execute_requests (E : env) (api : API) (method : string)
        (post_data : option string) (return_cursors use_cache : bool)
        (fuel : nat) (m : APIMethod) (k : nat) (rq : request) :
  let run := execute E api method post_data return_cursors use_cache fuel m in
  requests (trace_of run) !! k = Some rq ->
  rq = {| rq_method := method;
          rq_url := "https://" +:+ m_host m +:+ m_api_root m +:+ path m;
          rq_headers := m_headers m; rq_data := post_data;
          rq_json := json_payload m; rq_timeout := timeout api;
          rq_auth := match auth api with
                     | Some h => apply_auth E h k
                     | None => None
                     end;
          rq_proxies := proxy api |}.
Proof.
  intros run. subst run.
  destruct (execute_shape E api method post_data return_cursors use_cache
                          fuel m) as (net & store & -> & Hnet & Hstore).
  rewrite !requests_app.
  assert (H0 : requests (lookup_events api method use_cache m) = []).
  { unfold lookup_events. by destruct (cache_in_use api method use_cache). }
  assert (H1 : requests store = []).
  { by destruct Hstore as [->|(v & -> & _)]. }
  rewrite H0, H1, app_nil_r. cbn [app].
  destruct Hnet as [(-> & _)|[_ ->]]; [done|].
  intros Hk.
  rewrite (retry_loop_requests E api method post_data m fuel (initial m) k rq
                               (rate_limit_only_refl m) Hk).
  unfold make_request, credentials, authenticate, full_url_of, url_of.
  cbn [initial sends Nat.add]. by destruct (auth api).
Qed.

(** X8: every request of a call has the method, the URL
    ['https://' + host + api_root + path], the headers, the form and JSON
    bodies, the timeout and the proxies of the call, whatever the attempt;
    the request made after [k] others carries the credentials that
    [apply_auth] gave for it, or none without an auth handler. *)
Theorem requests_are_uniform (E : env) (api : API) (method : string)
        (post_data : option string) (return_cursors use_cache : bool)
        (fuel : nat) (m : APIMethod) (k : nat) (rq : request) :
  let run := execute E api method post_data return_cursors use_cache fuel m in
  requests (trace_of run) !! k = Some rq ->
  rq = {| rq_method := method;
          rq_url := "https://" +:+ m_host m +:+ m_api_root m +:+ path m;
          rq_headers := m_headers m; rq_data := post_data;
          rq_json := json_payload m; rq_timeout := timeout api;
          rq_auth := match auth api with
                     | Some h => apply_auth E h k
                     | None => None
                     end;
          rq_proxies := proxy api |}.
Proof.
  exact (execute_requests E api method post_data return_cursors use_cache
                          fuel m k rq).
Qed.

Lemma requests_are_uniform_witness :
  exists rq,
    requests (trace_of (execute (world (fun _ => inr response_500) ONone
                                       (fun _ => false))
                                demo_api "GET" None false true 3 demo_method))
    !! 2%nat = Some rq
    /\ rq_url rq = "https://api.twitter.com/1.1/statuses/show.json"
    /\ rq_auth rq = Some "token".
Proof.
  eexists. split; [reflexivity|].
  by rewrite (requests_are_uniform
                (world (fun _ => inr response_500) ONone (fun _ => false))
                demo_api "GET" None false true 3 demo_method 2 _ eq_refl).
Defined.

Lemma execute_out_of_fuel E api method post_data return_cursors use_cache
      fuel m :
  result_of (execute E api method post_data return_cursors use_cache fuel m)
  = OutOfFuel
  <-> cache_hit E api method use_cache m = false
      /\ exists st,
          fst (retry_loop E api method post_data fuel (initial m))
          = LoopOutOfFuel st.
Proof.
  destruct (cache_hit E api method use_cache m) eqn:Hhit.
  - unfold cache_hit in Hhit. unfold execute.
    destruct (cache_in_use api method use_cache) as [c|]; [|discriminate].
    rewrite Hhit. cbn. split; [discriminate|by intros [? _]].
  - destruct (execute_miss E api method post_data return_cursors use_cache
                           fuel m Hhit) as (tr0 & -> & _).
    unfold network_phase.
    destruct (retry_loop E api method post_data fuel (initial m))
      as [[st'|e st'|st'] evs]; cbn [result_of fst].
    + destruct (after_loop_shape E api method return_cursors use_cache
                                 (set_cached_result false api) st' (tr0 ++ evs))
        as (_ & Hne & _).
      split; [done|]. by intros [_ [? ?]].
    + split; [done|]. by intros [_ [? ?]].
    + split; [|done]. intros _. split; [done|]. by exists st'.
Qed.

(** ** How a call ends *)

Lemma bounded_loop E api method post_data n :
  wait_on_rate_limit api = false ->
  forall fuel st,
    retry_count api + 1 - retries_performed st <= Z.of_nat n ->
    (n <= fuel)%nat ->
    let res := fst (retry_loop E api method post_data fuel st) in
    (forall st', res <> LoopOutOfFuel st')
    /\ (sends (state_of_loop res) <= sends st + n)%nat.
Proof.
  intros Hw. induction n as [|n IH]; intros fuel st Hleft Hfuel; simpl.
  - destruct fuel; simpl;
      (destruct (Z.ltb_spec (retries_performed st) (retry_count api + 1));
       [lia|]); cbn; split; [done|lia|done|lia].
  - destruct fuel as [|fuel]; [lia|]. simpl.
    destruct (Z.ltb_spec (retries_performed st) (retry_count api + 1));
      [|cbn; split; [done|lia]].
    destruct (iteration E api method post_data st) as [sr evs] eqn:Hit.
    pose proof (iteration_spec E api method post_data st sr evs Hit)
      as [(e & _ & -> & _)|(_ & Hs & _)]; [cbn; split; [done|lia]|].
    destruct sr as [st1|st1|e st1]; cbn in Hs |- *; try (split; [done|lia]).
    pose proof (iteration_counts E api method post_data st st1 evs Hw Hit)
      as Hre.
    destruct (IH fuel st1) as [Hne Hle]; [lia|lia|].
    destruct (retry_loop E api method post_data fuel st1) as [res' evs'].
    cbn in *. split; [done|lia].
Qed.

(** X10: with [wait_on_rate_limit] off, every call ends: it issues at most
    [retry_count + 1] requests, and as many iterations are enough for it
    to return or raise, whatever the transport answers. *)
Theorem terminates_without_waiting (E : env) (api : API) (method : string)
        (post_data : option string) (return_cursors use_cache : bool)
        (fuel : nat) (m : APIMethod) :
  wait_on_rate_limit api = false ->
  (Z.to_nat (retry_count api + 1) <= fuel)%nat ->
  let run := execute E api method post_data return_cursors use_cache fuel m in
  result_of run <> OutOfFuel
  /\ (count_sends (trace_of run) <= Z.to_nat (retry_count api + 1))%nat.
Proof.
  intros Hw Hfuel run. subst run.
  destruct (bounded_loop E api method post_data
                         (Z.to_nat (retry_count api + 1)) Hw fuel (initial m))
    as [Hne Hle];
    [change (retries_performed (initial m)) with 0; lia|done|].
  split.
  - intros Hout. apply execute_out_of_fuel in Hout as [_ [st' Hst']].
    by apply (Hne st').
  - destruct (execute_shape E api method post_data return_cursors use_cache
                            fuel m) as (net & store & -> & Hnet & Hstore).
    rewrite !count_sends_app.
    assert (H0 : count_sends (lookup_events api method use_cache m) = 0%nat).
    { unfold lookup_events. by destruct (cache_in_use api method use_cache). }
    assert (H1 : count_sends store = 0%nat).
    { by destruct Hstore as [->|(v & -> & _)]. }
    rewrite H0, H1. destruct Hnet as [(-> & _)|[_ ->]];
      [change (count_sends []) with 0%nat; lia|].
    destruct (retry_loop E api method post_data fuel (initial m))
      as [res evs] eqn:Hloop.
    pose proof (retry_loop_spec E api method post_data fuel _ _ _ Hloop)
      as (_ & Hc & _).
    cbn [fst snd state_of_loop initial sends] in Hle, Hc |- *. lia.
Qed.

Lemma terminates_without_waiting_witness :
  let run := execute spent_world (plain_api 4) "GET" None false true 5
                     demo_method in
  result_of run <> OutOfFuel
  /\ (count_sends (trace_of run)
      <= Z.to_nat (retry_count (plain_api 4) + 1))%nat.
Proof.
  apply (terminates_without_waiting spent_world (plain_api 4) "GET" None false
                                    true 5 demo_method);
    [reflexivity|by vm_compute].
Defined.

(** X11: with a negative [retry_count] the loop body never runs: a call
    that the cache does not answer sends nothing and raises
    [UnboundLocalError] at line 160, where [resp] is read without having
    been assigned; [api.last_response] is left as it was. *)
Theorem negative_retry_count (E : env) (api : API) (method : string)
        (post_data : option string) (return_cursors use_cache : bool)
        (fuel : nat) (m : APIMethod) :
  retry_count api < 0 ->
  cache_hit E api method use_cache m = false ->
  execute E api method post_data return_cursors use_cache fuel m
  = {| result_of := Raised (PyError "UnboundLocalError");
       api_of := set_cached_result false api; self_of := m;
       trace_of := lookup_events api method use_cache m |}.
Proof.
  intros Hneg Hmiss.
  destruct (execute_miss E api method post_data return_cursors use_cache
                         fuel m Hmiss) as (tr0 & -> & ->).
  fold (lookup_events api method use_cache m). unfold network_phase.
  assert (Hloop : retry_loop E api method post_data fuel (initial m)
                  = (LoopExit (initial m), [])).
  { destruct fuel; simpl;
      (destruct (Z.ltb_spec 0 (retry_count api + 1)); [lia|done]). }
  rewrite Hloop. unfold after_loop. cbn. by rewrite app_nil_r.
Qed.

Lemma negative_retry_count_witness :
  result_of
    (execute (world (fun _ => inr (response_200 "tweet")) ONone
                    (fun _ => false))
             (plain_api (-1)) "GET" None false true 5 demo_method)
  = Raised (PyError "UnboundLocalError").
Proof.
  by rewrite (negative_retry_count
                (world (fun _ => inr (response_200 "tweet")) ONone
                       (fun _ => false))
                (plain_api (-1)) "GET" None false true 5 demo_method
                eq_refl eq_refl).
Defined.

Section FirstAttempt.

Variable E : env.
Variable api : API.
Variable method : string.
Variable post_data : option string.
Variable return_cursors : bool.
Variable use_cache : bool.
Variable m : APIMethod.

Hypothesis miss : cache_hit E api method use_cache m = false.
Hypothesis budget : 0 <= retry_count api.

(** A call whose first iteration leaves the loop. *)
Lemma single_iteration fuel res evs :
  iteration E api method post_data (initial m) = (res, evs) ->
  (forall st, res <> Continue st) ->
  execute E api method post_data return_cursors use_cache (S fuel) m
  = match res with
    | Throw e st' =>
        {| result_of := Raised e; api_of := set_cached_result false api;
           self_of := self st';
           trace_of := lookup_events api method use_cache m ++ evs |}
    | Break st' | Continue st' =>
        after_loop E api method return_cursors use_cache
                   (set_cached_result false api) st'
                   (lookup_events api method use_cache m ++ evs)
    end.
Proof.
  intros Hit Hnc.
  destruct (execute_miss E api method post_data return_cursors use_cache
                         (S fuel) m miss) as (tr0 & -> & ->).
  fold (lookup_events api method use_cache m).
  unfold network_phase. cbn [retry_loop].
  change (retries_performed (initial m)) with 0.
  destruct (Z.ltb_spec 0 (retry_count api + 1)); [|lia].
  rewrite Hit. destruct res as [st'|st'|e st']; [by destruct (Hnc st')|done..].
Qed.

End FirstAttempt.

Lemma first_attempt_no_sleep E api method use_cache m k rq store q :
  (store = [] \/ exists key v, store = [CacheStore key v]) ->
  ~ In (Sleep q)
       ((lookup_events api method use_cache m
         ++ snd (authenticate E api k) ++ [Send rq]) ++ store).
Proof.
  intros Hstore. rewrite !in_app_iff. unfold lookup_events, authenticate.
  intros [[H|[H|H]]|H].
  - destruct (cache_in_use api method use_cache); [|done].
    by destruct H as [[=]|[]].
  - destruct (auth api); [|done]. by destruct H as [[=]|[]].
  - by destruct H as [[=]|[]].
  - destruct Hstore as [->|(key & v & ->)]; [done|].
    by destruct H as [[=]|[]].
Qed.

Lemma prelude_open E api m :
  gate_open api m ->
  prelude E api (initial m) = snd (authenticate E api 0).
Proof.
  intros Ho. unfold prelude. cbn [initial self sends].
  by rewrite (gate_open_nil E api m 0%nat Ho).
Qed.



(** X13: when the gate has nothing to wait for, the first request is
    answered with a 2xx status and the body is parsed, the call returns
    the parsed result after that single request: it looks the cache up,
    authenticates, sends, and stores the result in the cache when the
    cache is in use and the result is truthy; it does not sleep. The
    rate-limit headers of the response are not read, so [self] is as it
    was; [api.last_response] is the response. *)
Theorem success_at_first_attempt (E : env) (api : API) (method : string)
        (post_data : option string) (return_cursors use_cache : bool)
        (fuel : nat) (m : APIMethod) (r : response) (v : pyobj) :
  cache_hit E api method use_cache m = false ->
  0 <= retry_count api ->
  gate_open api m ->
  session_request E 0 (request_of E api method post_data (initial m))
  = inr r ->
  200 <= status_code r < 300 ->
  parse E (m_parser m) m (text r)
        (return_cursors || dict_mem "cursor" (m_params m)
         || dict_mem "next" (m_params m)) = inr v ->
  let run := execute E api method post_data return_cursors use_cache
                     (S fuel) m in
  run
  = {| result_of := Returned v;
       api_of := set_last_response r (set_cached_result false api);
       self_of := m;
       trace_of :=
         (lookup_events api method use_cache m
          ++ snd (authenticate E api 0)
          ++ [Send (request_of E api method post_data (initial m))])
         ++ match cache_in_use api method use_cache with
            | Some _ => if truthy v then [CacheStore (cache_key m) v] else []
            | None => []
            end |}
  /\ forall q, ~ In (Sleep q) (trace_of run).
Proof.
  intros Hmiss Hb Ho Hs Hst Hparse run. subst run.
  assert (H2 : is_2xx (status_code r) = true).
  { unfold is_2xx. apply andb_true_iff.
    split; [apply Z.leb_le|apply Z.ltb_lt]; lia. }
  assert (Hg : snd (gate E api (self (initial m)) (sends (initial m)))
               = None).
  { cbn [initial self sends]. by rewrite (gate_open_nil E api m 0%nat Ho). }
  rewrite (single_iteration E api method post_data return_cursors use_cache m
             Hmiss Hb fuel _ _
             (iteration_2xx E api method post_data (initial m) r Hg Hs H2));
    [|done].
  unfold after_loop, received. cbn [resp_var self initial].
  rewrite H2, andb_false_r, Hparse, (prelude_open E api m Ho).
  split; [done|]. intros q. cbn [trace_of].
  apply first_attempt_no_sleep.
  destruct (cache_in_use api method use_cache); [|by left].
  destruct (truthy v); [right; by eexists _, _|by left].
Qed.

Lemma success_at_first_attempt_witness :
  let run := execute (world (fun _ => inr (response_200 "tweet")) ONone
                            (fun _ => false))
                     demo_api "GET" None false true 1 demo_method in
  result_of run = Returned (OModel None "tweet")
  /\ forall q, ~ In (Sleep q) (trace_of run).
Proof.
  destruct (success_at_first_attempt
              (world (fun _ => inr (response_200 "tweet")) ONone
                     (fun _ => false))
              demo_api "GET" None false true 0 demo_method
              (response_200 "tweet") (OModel None "tweet")
              eq_refl ltac:(by vm_compute) ltac:(right; left; reflexivity)
              eq_refl ltac:(simpl; lia) eq_refl) as [H1 H2].
  split; [by rewrite H1|exact H2].
Defined.

(** X14: when the gate has nothing to wait for, [retry_errors] is not
    empty and the first response has a status that is neither 2xx nor 0,
    is not in [retry_errors] and is not taken by the rate-limit branch,
    the loop is left at once, whatever [retry_count]: the call looks the
    cache up, authenticates and sends one request, and does not sleep;
    the rate-limit headers have been read and the error made from the
    response is raised. *)
Theorem non_retryable_status_is_final (E : env) (api : API) (method : string)
        (post_data : option string) (return_cursors use_cache : bool)
        (fuel : nat) (m m' : APIMethod) (r : response) :
  cache_hit E api method use_cache m = false ->
  0 <= retry_count api ->
  gate_open api m ->
  session_request E 0 (request_of E api method post_data (initial m))
  = inr r ->
  ~ (200 <= status_code r < 300) ->
  status_code r <> 0 ->
  retry_errors api <> [] ->
  mem_Z (status_code r) (retry_errors api) = false ->
  ((status_code r =? 420) || (status_code r =? 429))
  && wait_on_rate_limit api = false ->
  update_rate_limit r m = inr m' ->
  let run := execute E api method post_data return_cursors use_cache
                     (S fuel) m in
  run
  = {| result_of := Raised (error_of E m r);
       api_of := set_last_response r (set_cached_result false api);
       self_of := m';
       trace_of :=
         lookup_events api method use_cache m
         ++ snd (authenticate E api 0)
         ++ [Send (request_of E api method post_data (initial m))] |}
  /\ forall q, ~ In (Sleep q) (trace_of run).
Proof.
  intros Hmiss Hb Ho Hs Hst Hnz Hre Hmem Hrl Hupd run. subst run.
  assert (H2 : is_2xx (status_code r) = false).
  { unfold is_2xx. apply andb_false_iff.
    destruct (Z.leb_spec 200 (status_code r)); [right|by left].
    apply Z.ltb_ge. lia. }
  assert (Hg : snd (gate E api (self (initial m)) (sends (initial m)))
               = None).
  { cbn [initial self sends]. by rewrite (gate_open_nil E api m 0%nat Ho). }
  pose proof (iteration_classified E api method post_data (initial m) r m'
                                   Hg Hs H2 Hupd) as Hit.
  assert (Hcl : classify api r m' = GiveUp).
  { unfold classify. rewrite Hrl, Hmem.
    by destruct (retry_errors api). }
  rewrite Hcl in Hit.
  rewrite (single_iteration E api method post_data return_cursors use_cache m
             Hmiss Hb fuel _ _ Hit); [|done].
  unfold after_loop, received. cbn [resp_var self initial].
  rewrite H2. apply Z.eqb_neq in Hnz. rewrite Hnz. cbn [negb andb].
  rewrite (prelude_open E api m Ho). split.
  - f_equal. f_equal. apply error_of_frame.
    pose proof (update_rate_limit_frame r m) as Hfr. by rewrite Hupd in Hfr.
  - intros q. cbn [trace_of].
    rewrite <- (app_nil_r (_ ++ _ ++ [Send _])).
    apply first_attempt_no_sleep. by left.
Qed.

Lemma non_retryable_status_is_final_witness :
  let run := execute (world (fun _ => inr response_404) ONone (fun _ => false))
                     demo_api "GET" None false true 1 demo_method in
  result_of run = Raised (TweepError "Not found" (Some response_404) (Some 131))
  /\ remaining_calls (self_of run) = Some 899
  /\ forall q, ~ In (Sleep q) (trace_of run).
Proof.
  destruct (non_retryable_status_is_final
              (world (fun _ => inr response_404) ONone (fun _ => false))
              demo_api "GET" None false true 0 demo_method
              (set_rate_limit (Some 899) None demo_method) response_404
              eq_refl ltac:(by vm_compute) ltac:(right; left; reflexivity)
              eq_refl ltac:(simpl; lia)
              ltac:(discriminate) ltac:(discriminate) eq_refl eq_refl eq_refl)
    as [H1 H2].
  split; [by rewrite H1|]. split; [by rewrite H1|exact H2].
Defined.

(** X15: a response with status 0 is not taken for an error: when the
    cache phase did not return and the loop ended on a response whose
    status is 0, the body is handed to the parser and the call returns
    what the parser returns, or raises what it raises. *)
Theorem status_zero_is_parsed (E : env) (api : API) (method : string)
        (post_data : option string) (return_cursors use_cache : bool)
        (fuel : nat) (m : APIMethod) (st' : loop_state) (evs : list event)
        (r : response) :
  cache_hit E api method use_cache m = false ->
  retry_loop E api method post_data fuel (initial m) = (LoopExit st', evs) ->
  resp_var st' = Some r ->
  status_code r = 0 ->
  let run := execute E api method post_data return_cursors use_cache fuel m in
  result_of run
  = match parse E (m_parser m) (self st') (text r)
                (return_cursors || dict_mem "cursor" (m_params m)
                 || dict_mem "next" (m_params m)) with
    | inl e => Raised e
    | inr v => Returned v
    end
  /\ last_response (api_of run) = Some r.
Proof.
  intros Hmiss Hloop Hresp Hz run. subst run.
  destruct (execute_miss E api method post_data return_cursors use_cache
                         fuel m Hmiss) as (tr0 & -> & _).
  pose proof (retry_loop_spec E api method post_data fuel _ _ _ Hloop)
    as (_ & _ & Hfr & _).
  cbn [state_of_loop initial self] in Hfr.
  destruct (rate_limit_only_key _ _ Hfr) as (_ & Hpar & Hprm).
  unfold network_phase. rewrite Hloop. unfold after_loop.
  rewrite Hresp, Hz, Hpar, Hprm. cbn [Z.eqb negb andb].
  by destruct (parse E _ _ _ _).
Qed.

Lemma status_zero_is_parsed_witness :
  result_of (execute (world (fun _ => inr response_0) ONone (fun _ => false))
                     (plain_api 0) "GET" None false true 1 demo_method)
  = Returned (OModel None "stub").
Proof.
  edestruct (status_zero_is_parsed
               (world (fun _ => inr response_0) ONone (fun _ => false))
               (plain_api 0) "GET" None false true 1 demo_method
               _ _ response_0 eq_refl eq_refl eq_refl eq_refl) as [H _].
  exact H.
Defined.

Section BudgetTrace.

Variable E : env.
Variable api : API.
Variable method : string.
Variable post_data : option string.

Hypothesis always_retryable :
  forall k rq, exists r,
    session_request E k rq = inr r
    /\ plainly_retryable api (status_code r) = true
    /\ rate_limit_headers_ok r = true.
Hypothesis delay_ok : sleepable (retry_delay api).
Hypothesis resets_ok :
  wait_on_rate_limit api = true ->
  forall k rq r s t,
    session_request E k rq = inr r ->
    headers r !! "x-rate-limit-reset" = Some s -> py_int s = Some t ->
    reset_reachable E t.

(** While retries are left, the loop ends with the sleep that follows the
    last request. *)
Lemma retryable_loop_ends_asleep n :
  forall fuel st,
    known_reset_ok E api (self st) ->
    retry_count api + 1 - retries_performed st = Z.of_nat (S n) ->
    (S n <= fuel)%nat ->
    exists st' tr,
      retry_loop E api method post_data fuel st
      = (LoopExit st', tr ++ [Sleep (retry_delay api)]).
Proof.
  induction n as [|n IH]; intros fuel st Hk Hleft Hfuel;
    (destruct fuel as [|fuel]; [lia|]); cbn [retry_loop];
    (destruct (Z.ltb_spec (retries_performed st) (retry_count api + 1));
     [|lia]);
    destruct (retryable_iteration E api method post_data always_retryable
                                  delay_ok resets_ok st Hk)
      as (st1 & -> & Hre & _ & Hk1 & _).
  - destruct (retryable_loop E api method post_data always_retryable delay_ok
                             resets_ok 0 fuel st1 Hk1)
      as (st' & evs & Hl & _); [lia|lia|].
    assert (evs = []) as ->.
    { destruct fuel; simpl in Hl;
        (destruct (Z.ltb_spec (retries_performed st1) (retry_count api + 1));
         [lia|]); by injection Hl as _ <-. }
    rewrite Hl.
    exists st', (prelude E api st
                 ++ [Send (request_of E api method post_data st)]).
    by rewrite app_nil_r, <- app_assoc.
  - destruct (IH fuel st1 Hk1) as (st' & tr & ->); [lia|lia|].
    exists st', ((prelude E api st
                  ++ [Send (request_of E api method post_data st);
                      Sleep (retry_delay api)]) ++ tr).
    by rewrite (app_assoc _ tr).
Qed.

End BudgetTrace.





(** ** [bind_api] *)

Lemma execute_never_closes E api method post_data return_cursors use_cache
      fuel m :
  count_close
    (trace_of (execute E api method post_data return_cursors use_cache fuel m))
  = 0%nat.
Proof.
  destruct (execute_shape E api method post_data return_cursors use_cache
                          fuel m) as (net & store & -> & Hnet & Hstore).
  rewrite !count_close_app.
  assert (H0 : count_close (lookup_events api method use_cache m) = 0%nat).
  { unfold lookup_events. by destruct (cache_in_use api method use_cache). }
  assert (H1 : count_close store = 0%nat).
  { by destruct Hstore as [->|(v & -> & _)]. }
  rewrite H0, H1. destruct Hnet as [(-> & _)|[_ ->]]; [done|].
  by destruct (retry_loop_counts E api method post_data fuel (initial m))
    as [_ ->].
Qed.

(** X18: once the method object is built, [bind_api] closes the session
    exactly once, as the last thing it does, whether the method is
    returned unexecuted, [execute] returns or [execute] raises; [execute]
    itself never closes the session. When the constructor raises, no
    session is closed. *)
Theorem session_closed_once (E : env) (api : API) (b : binding)
        (args : list (option pyval)) (kwargs : list (string * option pyval))
        (http_method : string) (post_data : option string)
        (return_cursors use_cache : bool) (fuel : nat) :
  match bind_api E api b args kwargs http_method post_data return_cursors
                 use_cache fuel with
  | InitFailed e => init api b args kwargs = inl e
  | Created m tr => tr = [SessionClose]
  | Executed r =>
      exists m,
        init api b args kwargs = inr m
        /\ (result_of r <> OutOfFuel ->
            trace_of r
            = trace_of (execute E api http_method post_data return_cursors
                                use_cache fuel m) ++ [SessionClose]
            /\ count_close (trace_of r) = 1%nat)
  end.
Proof.
  unfold bind_api.
  destruct (init api b args kwargs) as [e|m]; [done|].
  destruct (pyval_truthy _); [done|].
  exists m. split; [done|]. cbn [result_of trace_of]. intros Hend.
  rewrite count_close_app, execute_never_closes.
  by destruct (result_of _).
Qed.

(** X19: a call with a truthy [create] keyword returns the method object
    without executing it: nothing is looked up, sent or slept. As [create]
    is not among the keywords the constructor pops, it is bound like any
    other parameter, so the method's parameters hold [create] with
    [str(value)]. *)
Theorem create_returns_method (E : env) (api : API) (b : binding)
        (args : list (option pyval)) (kwargs : list (string * option pyval))
        (http_method : string) (post_data : option string)
        (return_cursors use_cache : bool) (fuel : nat) (m : APIMethod)
        (v : pyval) :
  init api b args kwargs = inr m ->
  kwargs_get "create" kwargs = Some v ->
  pyval_truthy (Some v) = true ->
  bind_api E api b args kwargs http_method post_data return_cursors use_cache
           fuel
  = Created m [SessionClose]
  /\ dict_get "create" (m_params m) = Some (py_str v)
  /\ remaining_calls m = None /\ reset_time m = None.
Proof.
  intros Hinit Hget Htrue. unfold bind_api. rewrite Hinit, Hget, Htrue.
  split; [done|]. unfold init in Hinit.
  destruct (_ && _); [discriminate|].
  destruct (build_parameters (b_allowed_param b) args kwargs) as [e|p] eqn:Hp;
    [discriminate|].
  injection Hinit as <-. cbn. split; [|done].
  unfold build_parameters in Hp.
  destruct (bind_positional (b_allowed_param b) 0 args []) as [e|p0] eqn:Hpos;
    [discriminate|].
  apply dict_get_In.
  - apply (bind_keywords_NoDup kwargs p0 p); [|exact Hp].
    apply (bind_positional_NoDup (b_allowed_param b) args 0 [] p0);
      [constructor|exact Hpos].
  - rewrite (bind_keywords_success kwargs p0 p Hp). apply in_or_app. right.
    by apply supplied_In, kwargs_get_In.
Qed.

Lemma create_returns_method_witness :
  exists m,
    bind_api (world (fun _ => inr response_500) ONone (fun _ => false))
             demo_api demo_binding [Some (PInt 42)]
             [("create", Some (PBool true))] "GET" None false true 3
    = Created m [SessionClose]
    /\ m_params m = [("id", "42"); ("create", "True")].
Proof.
  eexists.
  destruct (create_returns_method
              (world (fun _ => inr response_500) ONone (fun _ => false))
              demo_api demo_binding [Some (PInt 42)]
              [("create", Some (PBool true))] "GET" None false true 3
              _ (PBool true) eq_refl eq_refl eq_refl) as [H _].
  split; [exact H|reflexivity].
Defined.

(** X20: every request that [bind_api] issues goes to
    ['https://' + host + root + path], where host and root are
    [upload_host] and [upload_root] when [upload_api] is set and [host]
    and [api_root] otherwise; it has the HTTP method, the body, the
    headers and the JSON payload given to [bind_api]. *)
Theorem bind_api_requests (E : env) (api : API) (b : binding)
        (args : list (option pyval)) (kwargs : list (string * option pyval))
        (http_method : string) (post_data : option string)
        (return_cursors use_cache : bool) (fuel : nat) (r : run) (k : nat)
        (rq : request) :
  bind_api E api b args kwargs http_method post_data return_cursors use_cache
           fuel = Executed r ->
  requests (trace_of r) !! k = Some rq ->
  rq_url rq
  = "https://"
      +:+ (if b_upload_api b then upload_host api else host api)
      +:+ (if b_upload_api b then upload_root api else api_root api)
      +:+ b_path b
  /\ rq_method rq = http_method /\ rq_data rq = post_data
  /\ rq_headers rq = b_headers b /\ rq_json rq = b_json_payload b.
Proof.
  unfold bind_api.
  destruct (init api b args kwargs) as [e|m] eqn:Hinit; [discriminate|].
  destruct (pyval_truthy _); [discriminate|].
  intros [= <-]. cbn [trace_of]. rewrite requests_app.
  assert (Hlast : requests
                    match result_of (execute E api http_method post_data
                                             return_cursors use_cache fuel m)
                    with
                    | OutOfFuel => []
                    | _ => [SessionClose]
                    end = []) by by destruct (result_of _).
  rewrite Hlast, app_nil_r. intros Hk.
  rewrite (execute_requests E api http_method post_data return_cursors
                            use_cache fuel m k rq Hk).
  cbn. unfold init in Hinit. destruct (_ && _); [discriminate|].
  destruct (build_parameters _ _ _); [discriminate|].
  by injection Hinit as <-.
Qed.

Lemma bind_api_requests_witness :
  exists r rq,
    bind_api (world (fun _ => inr (response_200 "media")) ONone
                    (fun _ => false))
             demo_api upload_binding [] [] "POST" (Some "bytes") false true 1
    = Executed r
    /\ requests (trace_of r) !! 0%nat = Some rq
    /\ rq_url rq = "https://upload.twitter.com/1.1/media/upload.json"
    /\ rq_method rq = "POST".
Proof.
  eexists _, _. split; [reflexivity|]. split; [reflexivity|].
  destruct (bind_api_requests
              (world (fun _ => inr (response_200 "media")) ONone
                     (fun _ => false))
              demo_api upload_binding [] [] "POST" (Some "bytes") false true 1
              _ 0 _ eq_refl eq_refl) as (H1 & H2 & _).
  split; [exact H1|exact H2].
Defined.

(** ** Cache keys *)

Lemma append_assoc (a b c : string) : (a +:+ b) +:+ c = a +:+ b +:+ c.
Proof.
  induction a as [|x a IH]; [done|].
  change (String x ((a +:+ b) +:+ c) = String x (a +:+ b +:+ c)).
  by f_equal.
Qed.

Lemma append_nil_r (a : string) : a +:+ "" = a.
Proof.
  induction a as [|x a IH]; [done|].
  change (String x (a +:+ "") = String x a). by f_equal.
Qed.

Lemma append_nil_l (a : string) : "" +:+ a = a.
Proof. reflexivity. Qed.

Lemma append_cons (x : ascii) (a b : string) :
  String x a +:+ b = String x (a +:+ b).
Proof. reflexivity. Qed.

Lemma quote_plus_cons (c : ascii) (s : string) :
  quote_plus (String c s) = quote_byte c +:+ quote_plus s.
Proof.
  unfold quote_byte. simpl.
  destruct (always_safe c); [done|]. by destruct (Ascii.eqb c " ").
Qed.

Lemma unquote_quote_byte (c : ascii) : unquote_byte (quote_byte c) = Some c.
Proof. destruct c as [[] [] [] [] [] [] [] []]; reflexivity. Qed.

Lemma quote_byte_no_separator (c : ascii) :
  no_separator (quote_byte c) = true.
Proof. destruct c as [[] [] [] [] [] [] [] []]; reflexivity. Qed.

Lemma quote_byte_shape (c : ascii) :
  (exists x, quote_byte c = String x "" /\ x <> "%"%char)
  \/ exists h1 h2, quote_byte c = String "%" (String h1 (String h2 "")).
Proof.
  unfold quote_byte. simpl. destruct (always_safe c) eqn:Hs.
  - left. exists c. split; [done|]. by intros ->.
  - destruct (Ascii.eqb c " ").
    + left. by exists "+"%char.
    + right. by eexists _, _.
Qed.

Lemma quote_byte_inj (c1 c2 : ascii) : quote_byte c1 = quote_byte c2 -> c1 = c2.
Proof.
  intros H. apply (f_equal unquote_byte) in H.
  rewrite !unquote_quote_byte in H. by injection H.
Qed.

Lemma quote_plus_inj (s1 : string) :
  forall s2, quote_plus s1 = quote_plus s2 -> s1 = s2.
Proof.
  induction s1 as [|c1 s1 IH]; intros [|c2 s2].
  - done.
  - rewrite quote_plus_cons.
    by destruct (quote_byte_shape c2) as [(x & -> & _)|(h1 & h2 & ->)].
  - rewrite quote_plus_cons.
    by destruct (quote_byte_shape c1) as [(x & -> & _)|(h1 & h2 & ->)].
  - rewrite !quote_plus_cons. intros H.
    assert (Hq : quote_byte c1 = quote_byte c2
                 /\ quote_plus s1 = quote_plus s2).
    { destruct (quote_byte_shape c1) as [(x1 & H1 & Hx1)|(a1 & b1 & H1)],
        (quote_byte_shape c2) as [(x2 & H2 & Hx2)|(a2 & b2 & H2)];
        rewrite H1, H2 in *; simpl in H; injection H; intros; subst; done. }
    destruct Hq as [Hc Hs]. by rewrite (quote_byte_inj _ _ Hc), (IH _ Hs).
Qed.

Lemma no_separator_app (a b : string) :
  no_separator (a +:+ b) = no_separator a && no_separator b.
Proof.
  induction a as [|x a IH]; simpl; [done|]. by rewrite IH, andb_assoc.
Qed.

Lemma quote_plus_no_separator (s : string) :
  no_separator (quote_plus s) = true.
Proof.
  induction s as [|c s IH]; [done|].
  by rewrite quote_plus_cons, no_separator_app, quote_byte_no_separator, IH.
Qed.

Lemma separator_is_unique (x : string) :
  forall y t1 t2,
    no_separator x = true -> no_separator y = true ->
    at_separator t1 -> at_separator t2 ->
    x +:+ t1 = y +:+ t2 -> x = y /\ t1 = t2.
Proof.
  induction x as [|a x IH]; intros [|b y] t1 t2 Hx Hy H1 H2;
    rewrite ?append_nil_l, ?append_cons.
  - done.
  - intros ->. simpl in Hy. apply andb_true_iff in Hy as [Hb _].
    destruct H1 as [?|(d & r & [= <- _] & Hd)]; [done|].
    by rewrite Hd in Hb.
  - intros <-. simpl in Hx. apply andb_true_iff in Hx as [Ha _].
    destruct H2 as [?|(d & r & [= <- _] & Hd)]; [done|].
    by rewrite Hd in Ha.
  - intros [= -> H]. simpl in Hx, Hy.
    apply andb_true_iff in Hx as [_ Hx]. apply andb_true_iff in Hy as [_ Hy].
    by destruct (IH y t1 t2 Hx Hy H1 H2 H) as [-> ->].
Qed.

Lemma urlencode_cons (k v : string) (p : params) :
  urlencode ((k, v) :: p)
  = quote_plus k +:+ "=" +:+ quote_plus v
      +:+ match p with [] => "" | _ => "&" +:+ urlencode p end.
Proof.
  unfold urlencode. destruct p as [|[k' v'] p]; simpl.
  - by rewrite append_nil_r.
  - by rewrite !append_assoc.
Qed.

Lemma urlencode_inj (p1 : params) :
  forall p2, urlencode p1 = urlencode p2 -> p1 = p2.
Proof.
  induction p1 as [|[k1 v1] p1 IH]; intros [|[k2 v2] p2].
  - done.
  - rewrite urlencode_cons. by destruct (quote_plus k2).
  - rewrite urlencode_cons. by destruct (quote_plus k1).
  - rewrite !urlencode_cons.
    set (T1 := match p1 with [] => "" | _ => "&" +:+ urlencode p1 end).
    set (T2 := match p2 with [] => "" | _ => "&" +:+ urlencode p2 end).
    assert (HT1 : at_separator T1).
    { subst T1. destruct p1; [by left|right; by eexists _, _]. }
    assert (HT2 : at_separator T2).
    { subst T2. destruct p2; [by left|right; by eexists _, _]. }
    intros H.
    destruct (separator_is_unique
                (quote_plus k1) (quote_plus k2)
                ("=" +:+ quote_plus v1 +:+ T1) ("=" +:+ quote_plus v2 +:+ T2))
      as [Hk Hrest];
      [apply quote_plus_no_separator..|right; by eexists _, _
      |right; by eexists _, _|exact H|].
    rewrite !append_cons, !append_nil_l in Hrest. injection Hrest as Hrest.
    destruct (separator_is_unique (quote_plus v1) (quote_plus v2) T1 T2)
      as [Hv HT]; [apply quote_plus_no_separator..|done|done|exact Hrest|].
    apply quote_plus_inj in Hk as ->. apply quote_plus_inj in Hv as ->.
    subst T1 T2. destruct p1 as [|x1 p1], p2 as [|x2 p2]; try done.
    rewrite !append_cons, !append_nil_l in HT. injection HT as HT.
    by rewrite (IH _ HT).
Qed.

(** X21: cache keys do not collide: two calls to the same URL are looked
    up and stored under the same key only if their parameters are the
    same names with the same values in the same order. *)
Theorem cache_keys_do_not_collide (m1 m2 : APIMethod) :
  url_of m1 = url_of m2 ->
  cache_key m1 = cache_key m2 ->
  m_params m1 = m_params m2.
Proof.
  unfold cache_key. intros -> H.
  apply (inj (String.append (url_of m2))) in H.
  injection H as H. by apply urlencode_inj.
Qed.

Lemma cache_keys_do_not_collide_witness :
  m_params (set_rate_limit (Some 3) None demo_method) = m_params demo_method.
Proof.
  apply (cache_keys_do_not_collide
           (set_rate_limit (Some 3) None demo_method) demo_method);
    reflexivity.
Defined.
